(** * mtmq: a bounded, mutex-protected message queue (mtmq.c)

    A shallow embedding of [mtmq.c] and the properties of its ring buffer.

    The queue structure is a record; every operation is a function from the
    queue before the call to the queue after it.  What the C code obtains
    from the platform (the return codes of the pthread primitives, the clock,
    what other threads do to the queue while a waiter has released the mutex)
    is an explicit input of the operation. *)

From Stdlib Require Import ZArith Lia Bool.
From stdpp Require Import base list.

Local Open Scope Z_scope.

(** ** The platform

    [struct timespec] and the [errno] constants come from the C library, not
    from the repository.  [tv_nsec] has type [long] and [tv_sec] has type
    [time_t]; their widths and the two error numbers that [mtmq_push] and
    [mtmq_pop] test are the parameters of the development. *)

Class Platform := {
  long_bits : Z;
  time_t_bits : Z;
  ETIMEDOUT : Z;
  EINTR : Z
}.

(** Linux on a 64-bit machine: the [CLOCK_MONOTONIC] branch of
    [MTMQ_CLOCK_TYPE]. *)
Definition LP64 : Platform :=
  {| long_bits := 64; time_t_bits := 64; ETIMEDOUT := 110; EINTR := 4 |}.

(** 64-bit Windows (the [_WIN32] branch): [long] has 32 bits. *)
Definition LLP64 : Platform :=
  {| long_bits := 32; time_t_bits := 64; ETIMEDOUT := 138; EINTR := 4 |}.

(** ** Machine integers

    A signed integer of [w] bits is a [Z]; [wrap w] is the value an
    arithmetic result takes when it is stored back in [w] bits. *)

Definition wrap (w z : Z) : Z := (z + 2 ^ (w - 1)) mod 2 ^ w - 2 ^ (w - 1).

Definition fits (w z : Z) : Prop := - 2 ^ (w - 1) <= z < 2 ^ (w - 1).

Definition INT_MAX : Z := 2147483647.
Definition INT_MIN : Z := -2147483648.

(** Closed instances of [fits] are decided by evaluation. *)
Ltac fits_compute :=
  unfold fits; vm_compute; split; [intro; discriminate | reflexivity].

(** [int] arithmetic of the queue's counters and indices. *)
Definition int_add (x y : Z) : Z := wrap 32 (x + y).
Definition int_sub (x y : Z) : Z := wrap 32 (x - y).

(** ** Result codes ([mtmq.h]) *)

Definition MTMQ_RC_OK : Z := 0.
Definition MTMQ_RC_FINALIZED : Z := 1.
Definition MTMQ_RC_TIMEDOUT : Z := 2.
Definition MTMQ_RC_INTERRUPTED : Z := 3.
Definition MTMQ_RC_ERROR : Z := 4.

(** ** Time *)

Record timespec := { tv_sec : Z; tv_nsec : Z }.

(** [calc_abs_timeout]: [now] is what [clock_gettime] stores in [*ts].
    [/] and [%] of C truncate towards zero ([Z.quot], [Z.rem]). *)
Definition calc_abs_timeout `{Platform} (now : timespec) (timeout_ms : Z)
    : timespec :=
  let t := timeout_ms in
  let t := wrap long_bits (t * 1000000) in
  let nsec := wrap long_bits (tv_nsec now + t) in
  let sec := wrap time_t_bits (tv_sec now + Z.quot nsec 1000000000) in
  {| tv_sec := sec; tv_nsec := Z.rem nsec 1000000000 |}.

(** The instant a [timespec] denotes, in nanoseconds. *)
Definition nanos (ts : timespec) : Z := tv_sec ts * 1000000000 + tv_nsec ts.

(** ** The queue

    [void *] payloads are addresses the queue never follows: a number. *)

Definition ptr : Type := Z.

Record mtmq_elt := { code : Z; data : ptr }.

(** [struct mtmq].  The mutex and the two condition variables are platform
    objects: what they return is an input of each operation (an [oracle],
    below), and the signals sent on them are an output. *)
Record mtmq := {
  num_rd : Z;   (* number of currently waiting readers *)
  num_wr : Z;   (* number of currently waiting writers *)
  fin : Z;      (* finalized flag *)
  num : Z;      (* number of elements in queue *)
  first : Z;    (* index of first element in queue *)
  last : Z;     (* index of last element in queue + 1 *)
  size : Z;     (* queue max size *)
  arr : list mtmq_elt   (* queue elements array *)
}.

Definition set_num_rd (v : Z) (q : mtmq) : mtmq :=
  {| num_rd := v; num_wr := num_wr q; fin := fin q; num := num q;
     first := first q; last := last q; size := size q; arr := arr q |}.

Definition set_num_wr (v : Z) (q : mtmq) : mtmq :=
  {| num_rd := num_rd q; num_wr := v; fin := fin q; num := num q;
     first := first q; last := last q; size := size q; arr := arr q |}.

Definition set_fin (v : Z) (q : mtmq) : mtmq :=
  {| num_rd := num_rd q; num_wr := num_wr q; fin := v; num := num q;
     first := first q; last := last q; size := size q; arr := arr q |}.

Definition set_num (v : Z) (q : mtmq) : mtmq :=
  {| num_rd := num_rd q; num_wr := num_wr q; fin := fin q; num := v;
     first := first q; last := last q; size := size q; arr := arr q |}.

Definition set_first (v : Z) (q : mtmq) : mtmq :=
  {| num_rd := num_rd q; num_wr := num_wr q; fin := fin q; num := num q;
     first := v; last := last q; size := size q; arr := arr q |}.

Definition set_last (v : Z) (q : mtmq) : mtmq :=
  {| num_rd := num_rd q; num_wr := num_wr q; fin := fin q; num := num q;
     first := first q; last := v; size := size q; arr := arr q |}.

Definition set_arr (v : list mtmq_elt) (q : mtmq) : mtmq :=
  {| num_rd := num_rd q; num_wr := num_wr q; fin := fin q; num := num q;
     first := first q; last := last q; size := size q; arr := v |}.

(** [a[i]] and [a[i] = e].  An index outside the array is an access outside
    the allocated block: [None]. *)
Definition load (a : list mtmq_elt) (i : Z) : option mtmq_elt :=
  if 0 <=? i then a !! Z.to_nat i else None.

Definition store (a : list mtmq_elt) (i : Z) (e : mtmq_elt)
    : option (list mtmq_elt) :=
  if (0 <=? i) && (i <? Z.of_nat (length a))
  then Some (<[Z.to_nat i := e]> a) else None.

(** ** What the platform contributes to a call *)

(** A thread that waits on a condition variable releases the mutex.  When
    [pthread_cond_wait] or [pthread_cond_timedwait] returns, it returns
    [wk_rc], and the queue is what the other threads made of it in between:
    [wk_env] of the queue the waiter left. *)
Record wake := { wk_rc : Z; wk_env : mtmq -> mtmq }.

Record oracle := {
  lock_rc : Z;          (* what pthread_mutex_lock returns *)
  clock : timespec;     (* what clock_gettime stores *)
  wakes : list wake     (* the successive returns of the wait primitive *)
}.

(** Signals sent on the condition variables. *)
Inductive signal := SignalRd | SignalWr | BroadcastRd | BroadcastWr.

(** How a call ends. *)
Inductive result (A : Type) : Type :=
| Returns (a : A)
| NoReturn      (* the thread stays in its wait loop for ever *)
| Undefined.    (* an access outside the element array *)
Arguments Returns {A} a.
Arguments NoReturn {A}.
Arguments Undefined {A}.

(** What a returning call leaves behind. *)
Record reply (A : Type) := {
  ret : A;               (* the value returned *)
  after : option mtmq;   (* the queue behind the handle, [None] for NULL *)
  unused : list wake;    (* returns of the wait primitive not consumed *)
  sent : list signal     (* signals sent, in order *)
}.
Arguments ret {A} r.
Arguments after {A} r.
Arguments unused {A} r.
Arguments sent {A} r.

(** The two wait loops of [mtmq_push] and of [mtmq_pop]:
    [for (rc=0; <blocked> && rc==0; ) rc = pthread_cond_[timed]wait(...)].
    [abstime] is [None] for [pthread_cond_wait] and the deadline for
    [pthread_cond_timedwait].  When no return of the primitive is left,
    nothing wakes the thread: the untimed wait never returns, and the timed
    wait returns [ETIMEDOUT] at its deadline (and again each time the loop
    calls it, would [ETIMEDOUT] be 0). *)
Fixpoint wait_loop `{Platform} (abstime : option timespec)
    (blocked : mtmq -> bool) (ws : list wake) (rc : Z) (q : mtmq)
    : result (Z * mtmq * list wake) :=
  if blocked q && (rc =? 0) then
    match ws with
    | [] =>
        match abstime with
        | None => NoReturn
        | Some _ => if ETIMEDOUT =? 0 then NoReturn
                    else Returns (ETIMEDOUT, q, [])
        end
    | w :: ws' => wait_loop abstime blocked ws' (wk_rc w) (wk_env w q)
    end
  else Returns (rc, q, ws).

(** [!q->fin && q->num==q->size] *)
Definition push_blocked (q : mtmq) : bool := (fin q =? 0) && (num q =? size q).

(** [!q->num && !q->fin] *)
Definition pop_blocked (q : mtmq) : bool := (num q =? 0) && (fin q =? 0).

(** [(i+1 < q->size) ? (i+1) : 0] *)
Definition advance (q : mtmq) (i : Z) : Z :=
  if int_add i 1 <? size q then int_add i 1 else 0.

(** ** The operations *)

(** [mtmq_create].  [malloc_ok] tells whether [malloc] returned a block and
    [setclock_rc] is what [pthread_condattr_setclock] returns.  [memset]
    zeroes the structure and the [size] elements that follow it.  The array
    of the model has the [size] slots the caller asks for, which is what
    the block holds whenever the byte count of lines 80-83 ([alloc_bytes]
    below) does not wrap around in [size_t]: for every [size] from 0 to
    [INT_MAX] where [size_t] has 64 bits.  (For a negative [size], and
    where [size_t] has 32 bits for a [size] of about 2^29 and more, the
    byte count wraps around; the block no longer has the layout of a queue
    and the model says nothing of it.) *)
Definition mtmq_create (malloc_ok : bool) (setclock_rc : Z) (size : Z)
    : option mtmq :=
  if negb malloc_ok then None
  else
    let ret := {| num_rd := 0; num_wr := 0; fin := 0; num := 0; first := 0;
                  last := 0; size := size;
                  arr := replicate (Z.to_nat size) {| code := 0; data := 0 |} |} in
    if negb (setclock_rc =? 0) then None
    else Some ret.

(** [mtmq_destroy].  The three arguments are what [pthread_cond_destroy]
    (twice) and [pthread_mutex_destroy] return.  The second component is the
    queue still allocated after the call. *)
Definition mtmq_destroy (rc_wr rc_rd rc_mtx : Z) (h : option mtmq)
    : Z * option mtmq :=
  match h with
  | None => (MTMQ_RC_ERROR, None)
  | Some q =>
      if negb (rc_wr =? 0) then (MTMQ_RC_ERROR, Some q)
      else if negb (rc_rd =? 0) then (MTMQ_RC_ERROR, Some q)
      else if negb (rc_mtx =? 0) then (MTMQ_RC_ERROR, Some q)
      else (MTMQ_RC_OK, None)
  end.

(** The outcome resolution of [mtmq_push], after [q->num_wr--]. *)
Definition push_resolve `{Platform} (rc : Z) (q : mtmq) (code : Z) (data : ptr)
    : result (Z * mtmq * list signal) :=
  if negb (fin q =? 0) then Returns (MTMQ_RC_FINALIZED, q, [])
  else if num q <? size q then
    match store (arr q) (last q) {| code := code; data := data |} with
    | None => Undefined
    | Some a =>
        let q := set_arr a q in
        let q := set_last (advance q (last q)) q in
        let q := set_num (int_add (num q) 1) q in
        Returns (MTMQ_RC_OK, q,
                 if negb (num_rd q =? 0) then [SignalRd] else [])
    end
  else if rc =? ETIMEDOUT then Returns (MTMQ_RC_TIMEDOUT, q, [])
  else if rc =? EINTR then Returns (MTMQ_RC_INTERRUPTED, q, [])
  else Returns (MTMQ_RC_ERROR, q, []).

Definition mtmq_push `{Platform} (o : oracle) (h : option mtmq)
    (code : Z) (data : ptr) (timeout : Z) : result (reply Z) :=
  match h with
  | None =>
      Returns {| ret := MTMQ_RC_ERROR; after := None;
                 unused := wakes o; sent := [] |}
  | Some q =>
      if negb (lock_rc o =? 0) then
        Returns {| ret := MTMQ_RC_ERROR; after := Some q;
                   unused := wakes o; sent := [] |}
      else
        let q := set_num_wr (int_add (num_wr q) 1) q in
        let waited :=
          if timeout <? 0 then wait_loop None push_blocked (wakes o) 0 q
          else
            let to := calc_abs_timeout (clock o) timeout in
            wait_loop (Some to) push_blocked (wakes o) 0 q in
        match waited with
        | NoReturn => NoReturn
        | Undefined => Undefined
        | Returns (rc, q, ws) =>
            let q := set_num_wr (int_sub (num_wr q) 1) q in
            match push_resolve rc q code data with
            | NoReturn => NoReturn
            | Undefined => Undefined
            | Returns (ret, q, sigs) =>
                Returns {| ret := ret; after := Some q;
                           unused := ws; sent := sigs |}
            end
        end
  end.

(** The outcome resolution of [mtmq_pop], after [q->num_rd--].  The second
    component is what the call stores through [code] and [data]: nothing
    unless it returns [MTMQ_RC_OK]. *)
Definition pop_resolve `{Platform} (rc : Z) (q : mtmq)
    : result (Z * option mtmq_elt * mtmq * list signal) :=
  if negb (num q =? 0) then
    match load (arr q) (first q) with
    | None => Undefined
    | Some e =>
        let q := set_first (advance q (first q)) q in
        let q := set_num (int_sub (num q) 1) q in
        Returns (MTMQ_RC_OK, Some e, q,
                 if negb (num_wr q =? 0) then [SignalWr] else [])
    end
  else if negb (fin q =? 0) then Returns (MTMQ_RC_FINALIZED, None, q, [])
  else if rc =? ETIMEDOUT then Returns (MTMQ_RC_TIMEDOUT, None, q, [])
  else if rc =? EINTR then Returns (MTMQ_RC_INTERRUPTED, None, q, [])
  else Returns (MTMQ_RC_ERROR, None, q, []).

Definition mtmq_pop `{Platform} (o : oracle) (h : option mtmq) (timeout : Z)
    : result (reply (Z * option mtmq_elt)) :=
  match h with
  | None =>
      Returns {| ret := (MTMQ_RC_ERROR, None); after := None;
                 unused := wakes o; sent := [] |}
  | Some q =>
      if negb (lock_rc o =? 0) then
        Returns {| ret := (MTMQ_RC_ERROR, None); after := Some q;
                   unused := wakes o; sent := [] |}
      else
        let q := set_num_rd (int_add (num_rd q) 1) q in
        let waited :=
          if timeout <? 0 then wait_loop None pop_blocked (wakes o) 0 q
          else
            let to := calc_abs_timeout (clock o) timeout in
            wait_loop (Some to) pop_blocked (wakes o) 0 q in
        match waited with
        | NoReturn => NoReturn
        | Undefined => Undefined
        | Returns (rc, q, ws) =>
            let q := set_num_rd (int_sub (num_rd q) 1) q in
            match pop_resolve rc q with
            | NoReturn => NoReturn
            | Undefined => Undefined
            | Returns (ret, out, q, sigs) =>
                Returns {| ret := (ret, out); after := Some q;
                           unused := ws; sent := sigs |}
            end
        end
  end.

(** [mtmq_finalize]: the queue after the call and the broadcasts sent. *)
Definition mtmq_finalize (h : option mtmq) : option mtmq * list signal :=
  match h with
  | None => (None, [])
  | Some q =>
      if fin q =? 0 then
        (Some (set_fin 1 q),
         (if negb (num_rd q =? 0) then [BroadcastRd] else []) ++
         (if negb (num_wr q =? 0) then [BroadcastWr] else []))
      else (Some q, [])
  end.

(** [mtmq_is_finalized]: the value returned and the queue after the call. *)
Definition mtmq_is_finalized (h : option mtmq) : Z * option mtmq :=
  let ret := 1 in
  match h with
  | Some q => (fin q, Some q)
  | None => (ret, None)
  end.

(** ** The buffered elements

    The buffered elements, oldest first, are in the slots [first],
    [first + 1], ... taken modulo [size]; there are [num] of them. *)

Fixpoint ring_slice (a : list mtmq_elt) (c i : Z) (n : nat)
    : list mtmq_elt :=
  match n with
  | O => []
  | S n' =>
      match load a (i mod c) with
      | Some e => e :: ring_slice a c (i + 1) n'
      | None => []
      end
  end.

Definition contents (q : mtmq) : list mtmq_elt :=
  ring_slice (arr q) (size q) (first q) (Z.to_nat (num q)).

(** The queue after the element has been stored in [a]: the tail index and
    the count of [mtmq_push]. *)
Definition enqueued (q : mtmq) (a : list mtmq_elt) : mtmq :=
  set_num (int_add (num q) 1) (set_last (advance q (last q)) (set_arr a q)).

(** The head index and the count of [mtmq_pop]. *)
Definition dequeued (q : mtmq) : mtmq :=
  set_num (int_sub (num q) 1) (set_first (advance q (first q)) q).

(** What a caller can observe of a queue through the interface: everything
    but the two counters of waiting threads. *)
Definition observable (q : mtmq)
    : Z * Z * Z * Z * Z * list mtmq_elt :=
  (fin q, num q, first q, last q, size q, arr q).

(** The ring invariant for capacity [c]. *)
Definition ring_inv (c : Z) (q : mtmq) : Prop :=
  size q = c /\
  0 <= num q <= c /\
  0 <= first q < c /\
  0 <= last q < c /\
  num q mod c = (last q - first q) mod c.

(** The element array has [size] slots, as [mtmq_create] allocates it. *)
Definition arr_ok (q : mtmq) : Prop := Z.of_nat (length (arr q)) = size q.

(** ** Sequential use

    One thread calls the operations one after the other and no other thread
    touches the queue: a wait primitive returns with the queue as the waiter
    left it. *)

Definition still (rc : Z) : wake := {| wk_rc := rc; wk_env := fun q => q |}.

Definition alone (lrc : Z) (clk : timespec) (rcs : list Z) : oracle :=
  {| lock_rc := lrc; clock := clk; wakes := map still rcs |}.

Inductive call :=
| Push (o : oracle) (code : Z) (data : ptr) (timeout : Z)
| Pop (o : oracle) (timeout : Z)
| Finalize
| IsFinalized.

(** An oracle is quiet when every wake-up it holds finds the queue as the
    waiter left it. *)
Definition quiet (o : oracle) : Prop :=
  Forall (fun w => forall q, wk_env w q = q) (wakes o).


Inductive event :=
| Pushed (rc : Z) (e : mtmq_elt)
| Popped (rc : Z) (out : option mtmq_elt)
| Closed (sigs : list signal)
| Asked (answer : Z).

(** Runs the calls in order on the queue [q].  The result is the log of the
    calls that returned and the queue they left; a call that does not return
    ends the run, the thread being stuck in it. *)
Fixpoint run `{Platform} (cs : list call) (q : mtmq) : list event * mtmq :=
  match cs with
  | [] => ([], q)
  | Push o code data timeout :: cs' =>
      match mtmq_push o (Some q) code data timeout with
      | Returns r =>
          let '(log, q') := run cs' (default q (after r)) in
          (Pushed (ret r) {| code := code; data := data |} :: log, q')
      | _ => ([], q)
      end
  | Pop o timeout :: cs' =>
      match mtmq_pop o (Some q) timeout with
      | Returns r =>
          let '(log, q') := run cs' (default q (after r)) in
          (Popped (fst (ret r)) (snd (ret r)) :: log, q')
      | _ => ([], q)
      end
  | Finalize :: cs' =>
      let '(h, sigs) := mtmq_finalize (Some q) in
      let '(log, q') := run cs' (default q h) in
      (Closed sigs :: log, q')
  | IsFinalized :: cs' =>
      let '(answer, h) := mtmq_is_finalized (Some q) in
      let '(log, q') := run cs' (default q h) in
      (Asked answer :: log, q')
  end.



(** The queue a waiter finds after the wake-ups [ws]. *)
Definition env_run (ws : list wake) (q : mtmq) : mtmq :=
  foldl (fun q w => wk_env w q) q ws.

(** The queue a call finds when its wait loop ends after the wake-ups
    [used], once it has counted itself out of the waiting threads. *)
Definition push_woken (used : list wake) (q : mtmq) : mtmq :=
  let qe := env_run used (set_num_wr (int_add (num_wr q) 1) q) in
  set_num_wr (int_sub (num_wr qe) 1) qe.

Definition pop_woken (used : list wake) (q : mtmq) : mtmq :=
  let qe := env_run used (set_num_rd (int_add (num_rd q) 1) q) in
  set_num_rd (int_sub (num_rd qe) 1) qe.

(** [if (q->fin)] *)
Definition finalized (q : mtmq) : Prop := fin q <> 0.

(** The ring invariant together with the shape of the array. *)
Definition well_formed (c : Z) (q : mtmq) : Prop := ring_inv c q /\ arr_ok q.

(** What a call relies on to keep the property [I] of the queue: while it
    waits, the other threads keep it. *)
Definition rely (I : mtmq -> Prop) (o : oracle) : Prop :=
  Forall (fun w => forall q, I q -> I (wk_env w q)) (wakes o).

(** A pop that takes the mutex. *)
Definition locked_pop (cl : call) : Prop :=
  match cl with
  | Pop o _ => lock_rc o = 0
  | _ => False
  end.

(** ** Sample values *)

Definition sample_clock : timespec := {| tv_sec := 5; tv_nsec := 999999999 |}.

(** An oracle for a call that takes the mutex and is never woken. *)
Definition sample_oracle : oracle := alone 0 sample_clock [].

(** A queue of capacity 2 that holds the element [(7, 70)] in slot 1. *)
Definition sample_queue : mtmq :=
  {| num_rd := 0; num_wr := 0; fin := 0; num := 1; first := 1; last := 0;
     size := 2;
     arr := [{| code := 0; data := 0 |}; {| code := 7; data := 70 |}] |}.

(** The same queue, finalized. *)
Definition sample_finalized : mtmq := set_fin 1 sample_queue.

(** A full queue of capacity 2. *)
Definition sample_full : mtmq :=
  {| num_rd := 0; num_wr := 0; fin := 0; num := 2; first := 1; last := 1;
     size := 2;
     arr := [{| code := 8; data := 80 |}; {| code := 7; data := 70 |}] |}.

(** A queue of capacity 2 as [mtmq_create] returns it. *)
Definition sample_created : mtmq :=
  {| num_rd := 0; num_wr := 0; fin := 0; num := 0; first := 0; last := 0;
     size := 2;
     arr := [{| code := 0; data := 0 |}; {| code := 0; data := 0 |}] |}.

(** Calls of one thread: the third push finds the queue full and times out;
    after the finalization the last push is refused, the buffered elements
    are still delivered, and the last pop finds the queue drained. *)
Definition sample_calls : list call :=
  [Push sample_oracle 1 10 (-1); Push sample_oracle 2 20 (-1);
   Push sample_oracle 3 30 100; Pop sample_oracle 0;
   Push sample_oracle 4 40 0; IsFinalized; Finalize; IsFinalized;
   Push sample_oracle 5 50 (-1); Pop sample_oracle 0;
   Pop sample_oracle (-1); Pop sample_oracle (-1)].

Definition sample_pops : list call :=
  [Pop sample_oracle (-1); Pop sample_oracle 250; Pop sample_oracle (-1)].

(** An oracle for a call that is woken once for nothing and then
    interrupted by a signal ([EINTR] is 4 on [LP64]). *)
Definition sample_interrupted : oracle := alone 0 sample_clock [0; 4].

(** An oracle for a call during whose wait another thread finalizes the
    queue. *)
Definition sample_finalizing : oracle :=
  {| lock_rc := 0; clock := sample_clock;
     wakes := [{| wk_rc := 0; wk_env := set_fin 1 |}] |}.

(** ** The wait a call makes

    [None] for the untimed wait of a negative timeout, the deadline
    otherwise. *)
Definition deadline `{Platform} (o : oracle) (timeout : Z) : option timespec :=
  if timeout <? 0 then None
  else Some (calc_abs_timeout (clock o) timeout).

(** A wake-up for nothing: the wait primitive returns 0 and no other thread
    has touched the queue. *)
Definition spurious (w : wake) : Prop :=
  wk_rc w = 0 /\ forall q, wk_env w q = q.

(** The outcome of a call whose wait failed with [rc] on a queue that still
    blocks it. *)
Definition wait_failure `{Platform} (rc : Z) : Z :=
  if rc =? ETIMEDOUT then MTMQ_RC_TIMEDOUT
  else if rc =? EINTR then MTMQ_RC_INTERRUPTED
  else MTMQ_RC_ERROR.

(** An oracle for a call whose timed wait ends at its deadline ([ETIMEDOUT]
    is 110 on [LP64]) while another thread takes the oldest element. *)
Definition sample_freeing : oracle :=
  {| lock_rc := 0; clock := sample_clock;
     wakes := [{| wk_rc := 110; wk_env := dequeued |}] |}.

(** An oracle for a call whose timed wait ends at its deadline while another
    thread stores the element [(7, 70)]. *)
Definition sample_filling : oracle :=
  {| lock_rc := 0; clock := sample_clock;
     wakes := [{| wk_rc := 110;
                  wk_env := fun q =>
                    enqueued q (<[Z.to_nat (last q) :=
                                    {| code := 7; data := 70 |}]> (arr q)) |}] |}.

(** ** The size of the block [mtmq_create] allocates

    [size_t] arithmetic is unsigned and modulo [2 ^ w].  The structure and
    the element sizes are the compiler's: parameters. *)

Definition size_wrap (w z : Z) : Z := z mod 2 ^ w.

(** [mtmq_size]: [sizeof(mtmq_t)] plus
    [(~mtmq_size + 1) & (sizeof(void* ) - 1)]. *)
Definition header_bytes (w sizeof_mtmq sizeof_ptr : Z) : Z :=
  let mtmq_size := sizeof_mtmq in
  size_wrap w
    (mtmq_size
     + Z.land (size_wrap w (size_wrap w (Z.lnot mtmq_size) + 1))
              (size_wrap w (sizeof_ptr - 1))).

(** The argument of [malloc] and of [memset]: [mtmq_size + arr_size], where
    [arr_size] is [sizeof(mtmq_elt_t) * size] with the [int] [size]
    converted to [size_t]. *)
Definition alloc_bytes (w sizeof_mtmq sizeof_ptr sizeof_elt size : Z) : Z :=
  let mtmq_size := header_bytes w sizeof_mtmq sizeof_ptr in
  let arr_size := size_wrap w (sizeof_elt * size_wrap w size) in
  size_wrap w (mtmq_size + arr_size).

(** ** The two threads of the demonstration ([test.c])

    What a thread prints, line by line. *)
Inductive line :=
| ProducerFinalized   (* Producer: queue is finalized. *)
| PushError           (* Error in mtmq_push(). *)
| ProducerExiting     (* Producer exiting. *)
| ConsumerFinalized   (* Consumer: queue is finalized. *)
| ConsumerTimeout     (* Consumer: timeout reading from queue. *)
| PopError            (* Error in mtmq_pop(). *)
| Number (i : Z)      (* the code of an element, in decimal *)
| ConsumerExiting.    (* Consumer exiting. *)

(** How far a thread got: it left its function, its loop was still running
    when the iterations granted to it were used up, it is stuck in a call
    that does not return, or a call left the element array. *)
Inductive status := Exited | Running | Hung | Faulted.

(** One iteration of a thread's loop: what the other threads do to the
    queue before the call takes the mutex, and the oracle of the call. *)
Record turn := { before : mtmq -> mtmq; during : oracle }.

(** [mtmq_push(queue, i, NULL, -1)] stores the element [(i, NULL)]. *)
Definition item (i : Z) : mtmq_elt := {| code := i; data := 0 |}.

(** The loop of [thread_wr], with [n] iterations left before [i] reaches
    16. *)
Fixpoint wr_loop `{Platform} (n : nat) (i : Z) (sched : Z -> turn) (q : mtmq)
    : list line * mtmq * status :=
  match n with
  | O => ([], q, Exited)
  | S n' =>
      let q := before (sched i) q in
      match mtmq_push (during (sched i)) (Some q) i 0 (-1) with
      | Returns r =>
          let q := default q (after r) in
          if ret r =? MTMQ_RC_FINALIZED then ([ProducerFinalized], q, Exited)
          else if negb (ret r =? MTMQ_RC_OK) then ([PushError], q, Exited)
          else wr_loop n' (int_add i 1) sched q
      | NoReturn => ([], q, Hung)
      | Undefined => ([], q, Faulted)
      end
  end.

(** [thread_wr]: the loop, then [mtmq_finalize] and the last line.  [last]
    is what the other threads do between the loop and [mtmq_finalize]. *)
Definition thread_wr `{Platform} (sched : Z -> turn) (last : mtmq -> mtmq)
    (q : mtmq) : list line * mtmq * status :=
  match wr_loop 16 0 sched q with
  | (out, q, Exited) =>
      let q := last q in
      (out ++ [ProducerExiting], default q (fst (mtmq_finalize (Some q))),
       Exited)
  | stuck => stuck
  end.

(** The loop of [thread_rd]: [for (;;)], of which [fuel] iterations are
    run; [k] counts the iterations and [i] is the variable the pop stores
    the code in.  The other threads run during [sleep(1)]. *)
Fixpoint rd_loop `{Platform} (fuel k : nat) (sched : nat -> turn) (i : Z)
    (q : mtmq) : list line * mtmq * status :=
  match fuel with
  | O => ([], q, Running)
  | S fuel' =>
      let q := before (sched k) q in
      match mtmq_pop (during (sched k)) (Some q) 250 with
      | Returns r =>
          let q := default q (after r) in
          let i := match snd (ret r) with Some e => code e | None => i end in
          let rc := fst (ret r) in
          if rc =? MTMQ_RC_FINALIZED then ([ConsumerFinalized], q, Exited)
          else if rc =? MTMQ_RC_TIMEDOUT then
            let '(out, q', st) := rd_loop fuel' (S k) sched i q in
            (ConsumerTimeout :: out, q', st)
          else if negb (rc =? MTMQ_RC_OK) then ([PopError], q, Exited)
          else
            let '(out, q', st) := rd_loop fuel' (S k) sched i q in
            (Number i :: out, q', st)
      | NoReturn => ([], q, Hung)
      | Undefined => ([], q, Faulted)
      end
  end.

(** [thread_rd]: the loop, then the last line. *)
Definition thread_rd `{Platform} (fuel : nat) (sched : nat -> turn) (i : Z)
    (q : mtmq) : list line * mtmq * status :=
  match rd_loop fuel 0 sched i q with
  | (out, q, Exited) => (out ++ [ConsumerExiting], q, Exited)
  | other => other
  end.

(** A thread that runs while no other thread does: nothing happens to the
    queue between its calls, its calls take the mutex, and its waits are
    woken for nothing only. *)
Definition lone (t : turn) : Prop :=
  (forall q, before t q = q) /\ lock_rc (during t) = 0 /\
  Forall spurious (wakes (during t)).

(** The turn of a thread that runs alone and is never woken. *)
Definition sample_turn : turn :=
  {| before := fun q => q; during := sample_oracle |}.

(** A queue of capacity 16 as [mtmq_create] returns it. *)
Definition sample_created16 : mtmq :=
  {| num_rd := 0; num_wr := 0; fin := 0; num := 0; first := 0; last := 0;
     size := 16; arr := replicate 16 {| code := 0; data := 0 |} |}.

(** A turn during which the other threads keep the queue in shape, before
    the call and while it waits. *)
Definition keeps_shape (c : Z) (t : turn) : Prop :=
  (forall q, well_formed c q -> well_formed c (before t q)) /\
  rely (well_formed c) (during t).

(** A turn in which another thread has taken an element before the call and
    finalizes the queue while the call waits. *)
Definition sample_busy_turn : turn :=
  {| before := fun q => if num q =? 0 then q else dequeued q;
     during := sample_finalizing |}.

(** A queue of capacity 18 that holds the element [(7, 70)] in slot 17. *)
Definition sample_roomy : mtmq :=
  {| num_rd := 0; num_wr := 0; fin := 0; num := 1; first := 17; last := 0;
     size := 18;
     arr := replicate 17 {| code := 0; data := 0 |}
            ++ [{| code := 7; data := 70 |}] |}.

(** An oracle for a call during whose wait another thread starts to wait
    in a push of its own, and whose wait a signal then interrupts. *)
Definition sample_joined : oracle :=
  {| lock_rc := 0; clock := sample_clock;
     wakes := [{| wk_rc := 4;
                  wk_env := fun q => set_num_wr (int_add (num_wr q) 1) q |}] |}.

(** * Properties *)

(** ** Basic facts on machine integers *)

Lemma wrap_fits w z : 0 < w -> fits w z -> wrap w z = z.
Proof.
  intros Hw [Hlo Hhi]. unfold wrap.
  assert (E : 2 ^ w = 2 * 2 ^ (w - 1)).
  { replace w with (Z.succ (w - 1)) at 1 by lia. apply Z.pow_succ_r. lia. }
  rewrite E. rewrite Z.mod_small; lia.
Qed.

Lemma fits_mono w w' z : 0 < w <= w' -> fits w z -> fits w' z.
Proof.
  intros Hw [Hlo Hhi]. unfold fits.
  assert (2 ^ (w - 1) <= 2 ^ (w' - 1)) by (apply Z.pow_le_mono_r; lia).
  lia.
Qed.

Lemma int_add_fits x y : INT_MIN <= x + y <= INT_MAX -> int_add x y = x + y.
Proof.
  intros Hr. unfold int_add. apply wrap_fits; [lia|].
  unfold fits, INT_MIN, INT_MAX in *. change (2 ^ (32 - 1)) with 2147483648. lia.
Qed.

Lemma int_sub_fits x y : INT_MIN <= x - y <= INT_MAX -> int_sub x y = x - y.
Proof.
  intros Hr. unfold int_sub. apply wrap_fits; [lia|].
  unfold fits, INT_MIN, INT_MAX in *. change (2 ^ (32 - 1)) with 2147483648. lia.
Qed.

(** ** [calc_abs_timeout] *)

Section Deadline.
Context `{P : Platform}.

Lemma ms_to_ns_fits timeout_ms :
  64 <= long_bits -> 0 <= timeout_ms <= INT_MAX ->
  fits long_bits (timeout_ms * 1000000).
Proof.
  intros Hw Ht. apply (fits_mono 64); [lia|].
  unfold fits, INT_MAX in *. change (2 ^ (64 - 1)) with 9223372036854775808. lia.
Qed.

Lemma deadline_nsec_fits now timeout_ms :
  64 <= long_bits -> 0 <= timeout_ms <= INT_MAX ->
  0 <= tv_nsec now < 1000000000 ->
  fits long_bits (tv_nsec now + timeout_ms * 1000000).
Proof.
  intros Hw Ht Hn. apply (fits_mono 64); [lia|].
  unfold fits, INT_MAX in *. change (2 ^ (64 - 1)) with 9223372036854775808. lia.
Qed.
End Deadline.

(** The deadline where [long] is wide enough.  On a platform whose [long]
    has at least 64 bits, for every
    [timeout_ms] between 0 and [INT_MAX] and every clock reading with
    [tv_nsec] in [0, 10^9) whose deadline is representable in [time_t],
    the millisecond-to-nanosecond product is not changed by being stored in
    a [long], the deadline is exactly [timeout_ms] milliseconds after the
    clock reading, and its [tv_nsec] is in [0, 10^9). *)
Theorem calc_abs_timeout_exact `{P : Platform} (now : timespec) (timeout_ms : Z) :
  64 <= long_bits ->
  0 <= timeout_ms <= INT_MAX ->
  0 <= tv_nsec now < 1000000000 ->
  fits time_t_bits
    (tv_sec now + (tv_nsec now + timeout_ms * 1000000) / 1000000000) ->
  wrap long_bits (timeout_ms * 1000000) = timeout_ms * 1000000 /\
  nanos (calc_abs_timeout now timeout_ms) = nanos now + timeout_ms * 1000000 /\
  0 <= tv_nsec (calc_abs_timeout now timeout_ms) < 1000000000.
Proof.
  intros Hw Ht Hn Hs.
  assert (Hms := ms_to_ns_fits timeout_ms Hw Ht).
  assert (Hsum := deadline_nsec_fits now timeout_ms Hw Ht Hn).
  assert (Htb : 0 < time_t_bits).
  { destruct (Z.ltb_spec 0 time_t_bits) as [|Hle]; [assumption|].
    exfalso. destruct Hs as [Hlo Hhi].
    rewrite Z.pow_neg_r in Hlo, Hhi by lia. lia. }
  unfold calc_abs_timeout, nanos; cbn [tv_sec tv_nsec].
  rewrite (wrap_fits long_bits (timeout_ms * 1000000)) by (assumption || lia).
  rewrite (wrap_fits long_bits (tv_nsec now + _)) by (assumption || lia).
  set (n := tv_nsec now + timeout_ms * 1000000) in *.
  assert (Hn0 : 0 <= n) by (unfold n; lia).
  rewrite Z.quot_div_nonneg, Z.rem_mod_nonneg by lia.
  rewrite (wrap_fits time_t_bits) by assumption.
  split; [reflexivity|]. split.
  - pose proof (Z.div_mod n 1000000000 ltac:(lia)). lia.
  - apply Z.mod_pos_bound. lia.
Qed.

(** A timeout of 250 ms taken at 5.999999999 s on [LP64]. *)
Lemma calc_abs_timeout_exact_witness :
  (64 <= @long_bits LP64 /\ 0 <= 250 <= INT_MAX /\
   0 <= tv_nsec sample_clock < 1000000000 /\
   fits (@time_t_bits LP64)
     (tv_sec sample_clock
      + (tv_nsec sample_clock + 250 * 1000000) / 1000000000)) /\
  (wrap (@long_bits LP64) (250 * 1000000) = 250 * 1000000 /\
   nanos (@calc_abs_timeout LP64 sample_clock 250)
   = nanos sample_clock + 250 * 1000000 /\
   0 <= tv_nsec (@calc_abs_timeout LP64 sample_clock 250) < 1000000000).
Proof.
  assert (H1 : 64 <= @long_bits LP64) by (cbn; lia).
  assert (H2 : 0 <= 250 <= INT_MAX) by (unfold INT_MAX; lia).
  assert (H3 : 0 <= tv_nsec sample_clock < 1000000000) by (cbn; lia).
  assert (H4 : fits (@time_t_bits LP64)
                 (tv_sec sample_clock
                  + (tv_nsec sample_clock + 250 * 1000000) / 1000000000))
    by fits_compute.
  split; [auto|].
  exact (@calc_abs_timeout_exact LP64 sample_clock 250 H1 H2 H3 H4).
Defined.

(** With a [long] of 32 bits the product wraps around from 2148 ms on: the
    deadline of a 3 s timeout lies before the clock reading and its
    [tv_nsec] is negative. *)
Example calc_abs_timeout_long32 :
  @calc_abs_timeout LLP64 {| tv_sec := 10; tv_nsec := 5 |} 3000
  = {| tv_sec := 9; tv_nsec := -294967291 |}.
Proof. reflexivity. Qed.

(** C8.  The type the milliseconds are converted in is [long], the type of
    [tv_nsec] (the source's own comment: store to wider type), and [long]
    is no wider than [int] where it has 32 bits, as on the [_WIN32] target
    the source provides for.  There the claim fails: for a timeout of
    3000 ms taken at 10.000000005 s the product 3000 * 1000000 is stored
    as -1294967296, and the deadline is 9 s and -294967291 ns.  Its
    [tv_nsec] is negative, and it lies 1294967296 ns before the clock
    reading, not 3000000000 ns after it. *)
Theorem calc_abs_timeout_overflow :
  @long_bits LLP64 = 32 /\
  wrap (@long_bits LLP64) (3000 * 1000000) = -1294967296 /\
  @calc_abs_timeout LLP64 {| tv_sec := 10; tv_nsec := 5 |} 3000
  = {| tv_sec := 9; tv_nsec := -294967291 |} /\
  nanos (@calc_abs_timeout LLP64 {| tv_sec := 10; tv_nsec := 5 |} 3000)
  = nanos {| tv_sec := 10; tv_nsec := 5 |} - 1294967296 /\
  nanos (@calc_abs_timeout LLP64 {| tv_sec := 10; tv_nsec := 5 |} 3000)
  <> nanos {| tv_sec := 10; tv_nsec := 5 |} + 3000 * 1000000 /\
  tv_nsec (@calc_abs_timeout LLP64 {| tv_sec := 10; tv_nsec := 5 |} 3000) < 0.
Proof.
  split; [reflexivity|]. split; [reflexivity|]. split; [reflexivity|].
  split; [reflexivity|]. split; [discriminate | reflexivity].
Qed.

(** ** The wait loop *)

Section WaitLoop.
Context `{P : Platform}.

(** A loop whose condition is false on entry calls no wait primitive. *)
Lemma wait_loop_skip abstime blocked ws q :
  blocked q = false ->
  wait_loop abstime blocked ws 0 q = Returns (0, q, ws).
Proof. intros Hb. destruct ws; simpl; rewrite Hb; reflexivity. Qed.

Lemma wait_loop_defined abstime blocked ws rc q :
  wait_loop abstime blocked ws rc q <> Undefined.
Proof.
  revert rc q. induction ws as [|w ws IH]; intros rc q; simpl.
  - destruct (blocked q && (rc =? 0)); [|discriminate].
    destruct abstime; [|discriminate].
    destruct (ETIMEDOUT =? 0); discriminate.
  - destruct (blocked q && (rc =? 0)); [apply IH | discriminate].
Qed.

(** When the loop ends, it has consumed a prefix [used] of the wake-ups,
    the queue is what the other threads made of it, and either the
    condition is false or the last wait failed. *)
Lemma wait_loop_returns abstime blocked ws rc q rc' q' ws' :
  wait_loop abstime blocked ws rc q = Returns (rc', q', ws') ->
  exists used,
    ws = used ++ ws' /\ q' = env_run used q /\
    (blocked q' = false \/ rc' <> 0).
Proof.
  revert rc q. induction ws as [|w ws IH]; intros rc q; simpl.
  - destruct (blocked q) eqn:Hb; simpl.
    + destruct (Z.eqb_spec rc 0) as [->|Hrc].
      * destruct abstime; [|discriminate].
        destruct (Z.eqb_spec ETIMEDOUT 0) as [|Hne]; [discriminate|].
        intros [= <- <- <-]. exists []. auto.
      * intros [= <- <- <-]. exists []. auto.
    + intros [= <- <- <-]. exists []. auto.
  - destruct (blocked q) eqn:Hb; simpl.
    + destruct (Z.eqb_spec rc 0) as [->|Hrc].
      * intros Hw. destruct (IH _ _ Hw) as (used & -> & -> & Hend).
        exists (w :: used). auto.
      * intros [= <- <- <-]. exists []. auto.
    + intros [= <- <- <-]. exists []. auto.
Qed.

(** The timed loop always ends (the deadline passes), provided
    [ETIMEDOUT] is an error number. *)
Lemma wait_loop_timed_returns to blocked ws rc q :
  ETIMEDOUT <> 0 ->
  exists r, wait_loop (Some to) blocked ws rc q = Returns r.
Proof.
  intros Hne. revert rc q. induction ws as [|w ws IH]; intros rc q; simpl.
  - destruct (blocked q && (rc =? 0)); [|eauto].
    destruct (Z.eqb_spec ETIMEDOUT 0); [contradiction | eauto].
  - destruct (blocked q && (rc =? 0)); [apply IH | eauto].
Qed.
End WaitLoop.

Lemma env_run_quiet ws q :
  Forall (fun w => forall q, wk_env w q = q) ws -> env_run ws q = q.
Proof.
  intros Hq. revert q. induction Hq as [|w ws Hw _ IH]; intros q; simpl.
  - reflexivity.
  - rewrite Hw. apply IH.
Qed.

Lemma env_run_preserves (I : mtmq -> Prop) ws q :
  Forall (fun w => forall q, I q -> I (wk_env w q)) ws ->
  I q -> I (env_run ws q).
Proof.
  intros Hr. revert q. induction Hr as [|w ws Hw _ IH]; intros q Hq; simpl.
  - assumption.
  - apply IH, Hw, Hq.
Qed.

(** ** A waiter's counter is restored *)

Lemma int_incr_decr x : int_sub (int_add x 1) 1 = wrap 32 x.
Proof.
  unfold int_sub, int_add, wrap.
  replace ((x + 1 + 2 ^ (32 - 1)) mod 2 ^ 32 - 2 ^ (32 - 1) - 1 + 2 ^ (32 - 1))
    with ((x + 1 + 2 ^ (32 - 1)) mod 2 ^ 32 - 1) by lia.
  rewrite Zminus_mod_idemp_l. f_equal. f_equal. lia.
Qed.

(** ** Calls on a finalized queue *)

Section Finalized.
Context `{P : Platform}.

Lemma push_blocked_fin q : fin q <> 0 -> push_blocked q = false.
Proof.
  intros Hf. unfold push_blocked.
  destruct (Z.eqb_spec (fin q) 0); [contradiction | reflexivity].
Qed.

Lemma pop_blocked_fin q : fin q <> 0 -> pop_blocked q = false.
Proof.
  intros Hf. unfold pop_blocked.
  destruct (Z.eqb_spec (fin q) 0); [contradiction | apply andb_false_r].
Qed.

Lemma pop_blocked_some q : num q <> 0 -> pop_blocked q = false.
Proof.
  intros Hn. unfold pop_blocked.
  destruct (Z.eqb_spec (num q) 0); [contradiction | reflexivity].
Qed.

(** A push on a finalized queue does not wait, stores nothing and
    returns [MTMQ_RC_FINALIZED]. *)
Lemma push_finalized o q code data timeout :
  fin q <> 0 -> lock_rc o = 0 ->
  mtmq_push o (Some q) code data timeout =
  Returns {| ret := MTMQ_RC_FINALIZED;
             after := Some (set_num_wr (wrap 32 (num_wr q)) q);
             unused := wakes o; sent := [] |}.
Proof.
  intros Hf Hl. unfold mtmq_push. rewrite Hl. simpl negb. cbv iota.
  set (q1 := set_num_wr (int_add (num_wr q) 1) q).
  assert (Hskip : forall abstime,
    wait_loop abstime push_blocked (wakes o) 0 q1 = Returns (0, q1, wakes o)).
  { intros. apply wait_loop_skip, push_blocked_fin. exact Hf. }
  destruct (timeout <? 0); cbv zeta; rewrite Hskip;
    unfold push_resolve, q1; simpl;
    destruct (Z.eqb_spec (fin q) 0); try contradiction; simpl;
    rewrite int_incr_decr; reflexivity.
Qed.

(** A pop on a finalized empty queue does not wait and returns
    [MTMQ_RC_FINALIZED]. *)
Lemma pop_finalized_empty o q timeout :
  fin q <> 0 -> num q = 0 -> lock_rc o = 0 ->
  mtmq_pop o (Some q) timeout =
  Returns {| ret := (MTMQ_RC_FINALIZED, None);
             after := Some (set_num_rd (wrap 32 (num_rd q)) q);
             unused := wakes o; sent := [] |}.
Proof.
  intros Hf Hn Hl. unfold mtmq_pop. rewrite Hl. simpl negb. cbv iota.
  set (q1 := set_num_rd (int_add (num_rd q) 1) q).
  assert (Hskip : forall abstime,
    wait_loop abstime pop_blocked (wakes o) 0 q1 = Returns (0, q1, wakes o)).
  { intros. apply wait_loop_skip, pop_blocked_fin. exact Hf. }
  destruct (timeout <? 0); cbv zeta; rewrite Hskip;
    unfold pop_resolve, q1; simpl; rewrite Hn; simpl;
    destruct (Z.eqb_spec (fin q) 0); try contradiction; simpl;
    rewrite int_incr_decr; reflexivity.
Qed.

(** A pop on a queue that holds an element does not wait, whether the
    queue is finalized or not. *)
Lemma pop_some o q timeout :
  num q <> 0 -> lock_rc o = 0 ->
  mtmq_pop o (Some q) timeout =
  match load (arr q) (first q) with
  | None => Undefined
  | Some e =>
      let q1 := set_num_rd (wrap 32 (num_rd q)) q in
      let q2 := set_num (int_sub (num q) 1)
                  (set_first (advance q (first q)) q1) in
      Returns {| ret := (MTMQ_RC_OK, Some e); after := Some q2;
                 unused := wakes o;
                 sent := if negb (num_wr q =? 0) then [SignalWr] else [] |}
  end.
Proof.
  intros Hn Hl. unfold mtmq_pop. rewrite Hl. simpl negb. cbv iota.
  set (q1 := set_num_rd (int_add (num_rd q) 1) q).
  assert (Hskip : forall abstime,
    wait_loop abstime pop_blocked (wakes o) 0 q1 = Returns (0, q1, wakes o)).
  { intros. apply wait_loop_skip, pop_blocked_some. exact Hn. }
  destruct (timeout <? 0); cbv zeta; rewrite Hskip;
    unfold pop_resolve, q1; simpl;
    destruct (Z.eqb_spec (num q) 0); try contradiction; simpl;
    destruct (load (arr q) (first q)); try reflexivity;
    simpl; rewrite int_incr_decr; reflexivity.
Qed.
End Finalized.

(** ** The ring buffer *)

Lemma advance_mod q i :
  0 <= i < size q -> size q <= INT_MAX -> advance q i = (i + 1) mod size q.
Proof.
  intros Hi Hc. unfold advance.
  rewrite int_add_fits by (unfold INT_MIN, INT_MAX in *; lia).
  destruct (Z.ltb_spec (i + 1) (size q)).
  - symmetry. apply Z.mod_small. lia.
  - replace (i + 1) with (size q) by lia. symmetry. apply Z.mod_same. lia.
Qed.

Lemma ring_last c q :
  ring_inv c q -> last q = (first q + num q) mod c.
Proof.
  intros (Hs & Hn & Hf & Hl & Hm).
  rewrite <- Zplus_mod_idemp_r, Hm, Zplus_mod_idemp_r.
  replace (first q + (last q - first q)) with (last q) by lia.
  symmetry. apply Z.mod_small. lia.
Qed.

Lemma ring_distinct c i k n :
  0 <= k < n -> n < c -> (i + k) mod c <> (i + n) mod c.
Proof.
  intros Hk Hn Heq.
  assert (E : (i + n - (i + k)) mod c = 0).
  { rewrite Zminus_mod, Heq, Z.sub_diag. apply Z.mod_0_l. lia. }
  replace (i + n - (i + k)) with (n - k) in E by lia.
  rewrite Z.mod_small in E; lia.
Qed.

Lemma load_in_range a i :
  0 <= i < Z.of_nat (length a) -> is_Some (load a i).
Proof.
  intros Hi. unfold load.
  destruct (Z.leb_spec 0 i); [|lia].
  apply lookup_lt_is_Some. lia.
Qed.

Lemma store_in_range a i e :
  0 <= i < Z.of_nat (length a) -> store a i e = Some (<[Z.to_nat i := e]> a).
Proof.
  intros Hi. unfold store.
  destruct (Z.leb_spec 0 i); [|lia].
  destruct (Z.ltb_spec i (Z.of_nat (length a))); [reflexivity | lia].
Qed.

Lemma store_some a i e a' :
  store a i e = Some a' ->
  0 <= i < Z.of_nat (length a) /\ a' = <[Z.to_nat i := e]> a.
Proof.
  unfold store.
  destruct (Z.leb_spec 0 i); simpl; [|discriminate].
  destruct (Z.ltb_spec i (Z.of_nat (length a))); [|discriminate].
  intros [= <-]. auto.
Qed.

Lemma load_store_same a i e :
  0 <= i < Z.of_nat (length a) -> load (<[Z.to_nat i := e]> a) i = Some e.
Proof.
  intros Hi. unfold load.
  destruct (Z.leb_spec 0 i); [|lia].
  apply list_lookup_insert_eq. lia.
Qed.

Lemma load_store_other a i j e :
  0 <= i -> 0 <= j -> i <> j -> load (<[Z.to_nat i := e]> a) j = load a j.
Proof.
  intros Hi Hj Hne. unfold load.
  destruct (Z.leb_spec 0 j); [|lia].
  apply list_lookup_insert_ne. lia.
Qed.

(** The slice depends on its start only modulo the capacity. *)
Lemma ring_slice_congr a c i j n :
  i mod c = j mod c -> ring_slice a c i n = ring_slice a c j n.
Proof.
  revert i j. induction n as [|n IH]; intros i j Hij; simpl.
  - reflexivity.
  - rewrite Hij. destruct (load a (j mod c)); [|reflexivity].
    f_equal. apply IH.
    rewrite <- (Zplus_mod_idemp_l i), Hij, Zplus_mod_idemp_l. reflexivity.
Qed.

(** A store into a slot outside the slice does not change it. *)
Lemma ring_slice_store_other a c i n j e :
  0 < c -> 0 <= j ->
  (forall k, 0 <= k < Z.of_nat n -> (i + k) mod c <> j) ->
  ring_slice (<[Z.to_nat j := e]> a) c i n = ring_slice a c i n.
Proof.
  intros Hc Hj. revert i. induction n as [|n IH]; intros i Hne; simpl.
  - reflexivity.
  - rewrite load_store_other.
    + destruct (load a (i mod c)); [|reflexivity].
      f_equal. apply IH. intros k Hk.
      replace (i + 1 + k) with (i + (k + 1)) by lia. apply Hne. lia.
    + assumption.
    + apply Z.mod_pos_bound. lia.
    + intros Heq. apply (Hne 0); [lia|]. rewrite Z.add_0_r. congruence.
Qed.

(** Over an array of [c] slots every slot of the slice is read, and one more
    slot appends its element. *)
Lemma ring_slice_snoc a c i n e :
  0 < c -> Z.of_nat (length a) = c ->
  load a ((i + Z.of_nat n) mod c) = Some e ->
  ring_slice a c i (S n) = ring_slice a c i n ++ [e].
Proof.
  intros Hc Hlen. revert i. induction n as [|n IH]; intros i He.
  - simpl in *. rewrite Z.add_0_r in He. rewrite He. reflexivity.
  - change (ring_slice a c i (S (S n))) with
      (match load a (i mod c) with
       | Some x => x :: ring_slice a c (i + 1) (S n)
       | None => []
       end).
    change (ring_slice a c i (S n)) with
      (match load a (i mod c) with
       | Some x => x :: ring_slice a c (i + 1) n
       | None => []
       end).
    destruct (load_in_range a (i mod c)) as [x Hx].
    { rewrite Hlen. apply Z.mod_pos_bound. lia. }
    rewrite Hx. simpl. f_equal. apply IH.
    rewrite <- He. f_equal. f_equal. lia.
Qed.

Lemma ring_slice_length a c i n :
  0 < c -> Z.of_nat (length a) = c -> length (ring_slice a c i n) = n.
Proof.
  intros Hc Hlen. revert i. induction n as [|n IH]; intros i; simpl.
  - reflexivity.
  - destruct (load_in_range a (i mod c)) as [x Hx].
    { rewrite Hlen. apply Z.mod_pos_bound. lia. }
    rewrite Hx. simpl. f_equal. apply IH.
Qed.

(** ** One element more, one element less *)

Section Ring.
Variable c : Z.
Variable q : mtmq.
Hypothesis Hring : ring_inv c q.
Hypothesis Hmax : c <= INT_MAX.

Lemma enqueued_ring a : num q < c -> ring_inv c (enqueued q a).
Proof using Hring Hmax.
  intros Hlt. pose proof (ring_last c q Hring) as Hlast.
  destruct Hring as (Hs & Hn & Hf & Hl & Hm).
  unfold ring_inv, enqueued; simpl.
  rewrite advance_mod, Hs by (rewrite ?Hs; lia).
  rewrite int_add_fits by (unfold INT_MIN, INT_MAX in *; lia).
  repeat split; try lia.
  - apply Z.mod_pos_bound; lia.
  - apply Z.mod_pos_bound; lia.
  - rewrite Zminus_mod_idemp_l.
    replace (last q + 1 - first q) with (last q - first q + 1) by lia.
    rewrite <- (Zplus_mod_idemp_l (last q - first q)), <- Hm.
    rewrite Zplus_mod_idemp_l. reflexivity.
Qed.

Lemma dequeued_ring : num q <> 0 -> ring_inv c (dequeued q).
Proof using Hring Hmax.
  intros Hne. destruct Hring as (Hs & Hn & Hf & Hl & Hm).
  unfold ring_inv, dequeued; simpl.
  rewrite advance_mod, Hs by (rewrite ?Hs; lia).
  rewrite int_sub_fits by (unfold INT_MIN, INT_MAX in *; lia).
  repeat split; try lia.
  - apply Z.mod_pos_bound; lia.
  - apply Z.mod_pos_bound; lia.
  - rewrite Zminus_mod_idemp_r.
    replace (last q - (first q + 1)) with (last q - first q - 1) by lia.
    rewrite <- (Zminus_mod_idemp_l (last q - first q)), <- Hm.
    rewrite Zminus_mod_idemp_l. reflexivity.
Qed.

Hypothesis Harr : arr_ok q.

Lemma enqueued_arr_ok e :
  arr_ok (enqueued q (<[Z.to_nat (last q) := e]> (arr q))).
Proof using Harr.
  unfold arr_ok, enqueued in *; simpl. rewrite length_insert. exact Harr.
Qed.

Lemma dequeued_arr_ok : arr_ok (dequeued q).
Proof using Harr. exact Harr. Qed.

(** A push appends its element to the buffered ones. *)
Lemma enqueued_contents e :
  num q < c ->
  contents (enqueued q (<[Z.to_nat (last q) := e]> (arr q)))
  = contents q ++ [e].
Proof using Hring Hmax Harr.
  intros Hlt. pose proof (ring_last c q Hring) as Hlast.
  destruct Hring as (Hs & Hn & Hf & Hl & Hm).
  unfold arr_ok in Harr. unfold contents, enqueued; simpl.
  rewrite int_add_fits by (unfold INT_MIN, INT_MAX in *; lia).
  replace (Z.to_nat (num q + 1)) with (S (Z.to_nat (num q))) by lia.
  rewrite Hs.
  rewrite (ring_slice_snoc _ c (first q) (Z.to_nat (num q)) e).
  - f_equal. apply ring_slice_store_other; [lia | lia |].
    intros k Hk. rewrite Hlast. apply ring_distinct; lia.
  - lia.
  - rewrite length_insert. lia.
  - rewrite Z2Nat.id by lia. rewrite <- Hlast.
    apply load_store_same. lia.
Qed.

(** A pop takes the oldest buffered element. *)
Lemma dequeued_contents :
  num q <> 0 ->
  exists e, load (arr q) (first q) = Some e /\
            contents q = e :: contents (dequeued q).
Proof using Hring Hmax Harr.
  intros Hne. destruct Hring as (Hs & Hn & Hf & Hl & Hm).
  unfold arr_ok in Harr.
  destruct (load_in_range (arr q) (first q)) as [e He]; [lia|].
  exists e. split; [exact He|].
  unfold contents, dequeued; simpl.
  rewrite int_sub_fits by (unfold INT_MIN, INT_MAX in *; lia).
  replace (Z.to_nat (num q)) with (S (Z.to_nat (num q - 1))) by lia.
  simpl. rewrite Hs, (Z.mod_small (first q)) by lia. rewrite He.
  f_equal. apply ring_slice_congr.
  rewrite advance_mod, Hs by (rewrite ?Hs; lia).
  symmetry. apply Z.mod_mod. lia.
Qed.

Lemma contents_length : length (contents q) = Z.to_nat (num q).
Proof using Hring Harr.
  destruct Hring as (Hs & Hn & Hf & Hl & Hm).
  unfold contents. apply ring_slice_length; unfold arr_ok in Harr; lia.
Qed.
End Ring.

(** ** What a returning call has done *)

Section Calls.
Context `{P : Platform}.

Lemma push_resolve_returns rc q code data rt q' sigs :
  push_resolve rc q code data = Returns (rt, q', sigs) ->
  (rt <> MTMQ_RC_OK /\ Some q' = Some q /\ sigs = []) \/
  (rt = MTMQ_RC_OK /\ fin q = 0 /\ num q < size q /\
   exists a,
     store (arr q) (last q) {| code := code; data := data |} = Some a /\
     Some q' = Some (enqueued q a)).
Proof.
  unfold push_resolve.
  destruct (Z.eqb_spec (fin q) 0) as [Hf|Hf]; simpl negb; cbv iota.
  2:{ intros [= <- <- <-]. left. split; [discriminate | auto]. }
  destruct (Z.ltb_spec (num q) (size q)) as [Hlt|Hge].
  - destruct (store (arr q) (last q) _) as [a|] eqn:Hst; [|discriminate].
    intros [= <- <- _]. right.
    split; [reflexivity|]. split; [exact Hf|]. split; [exact Hlt|].
    exists a. split; reflexivity.
  - destruct (rc =? ETIMEDOUT); [|destruct (rc =? EINTR)];
      intros [= <- <- <-]; left; (split; [discriminate | auto]).
Qed.

Lemma pop_resolve_returns rc q rt out q' sigs :
  pop_resolve rc q = Returns (rt, out, q', sigs) ->
  (rt <> MTMQ_RC_OK /\ out = None /\ Some q' = Some q /\ sigs = [] /\
   num q = 0 /\ (rt = MTMQ_RC_FINALIZED <-> fin q <> 0)) \/
  (rt = MTMQ_RC_OK /\ num q <> 0 /\
   exists e,
     load (arr q) (first q) = Some e /\ out = Some e /\
     Some q' = Some (dequeued q)).
Proof.
  unfold pop_resolve.
  destruct (Z.eqb_spec (num q) 0) as [Hn|Hn]; simpl negb; cbv iota.
  - destruct (Z.eqb_spec (fin q) 0) as [Hf|Hf]; simpl negb; cbv iota.
    + destruct (rc =? ETIMEDOUT); [|destruct (rc =? EINTR)];
        intros [= <- <- <- <-]; left;
        (split; [discriminate|]); do 4 (split; [auto|]);
        (split; [intros ?; discriminate | intros ?; contradiction]).
    + intros [= <- <- <- <-]. left.
      split; [discriminate|]. do 4 (split; [auto|]). split; auto.
  - destruct (load (arr q) (first q)) as [e|] eqn:Hld; [|discriminate].
    intros [= <- <- <- _]. right.
    split; [reflexivity|]. split; [exact Hn|].
    exists e. auto.
Qed.

(** A push that returns either failed to take the mutex, or left its wait
    loop after some wake-ups and then either stored its element in a free
    slot and returned [MTMQ_RC_OK], or touched nothing. *)
Lemma push_returns o q code data timeout r :
  mtmq_push o (Some q) code data timeout = Returns r ->
  (lock_rc o <> 0 /\
   r = {| ret := MTMQ_RC_ERROR; after := Some q;
          unused := wakes o; sent := [] |}) \/
  (lock_rc o = 0 /\
   exists used, wakes o = used ++ unused r /\
     let qw := push_woken used q in
     (ret r <> MTMQ_RC_OK /\ after r = Some qw /\ sent r = []) \/
     (ret r = MTMQ_RC_OK /\ fin qw = 0 /\ num qw < size qw /\
      exists a,
        store (arr qw) (last qw) {| code := code; data := data |} = Some a /\
        after r = Some (enqueued qw a))).
Proof.
  unfold mtmq_push.
  destruct (Z.eqb_spec (lock_rc o) 0) as [Hl|Hl]; simpl negb; cbv iota.
  2:{ intros [= <-]. left. auto. }
  intros Hr. right. split; [exact Hl|].
  set (q1 := set_num_wr (int_add (num_wr q) 1) q) in *.
  assert (Hw : exists abstime,
    match wait_loop abstime push_blocked (wakes o) 0 q1 with
    | Returns (rc, q, ws) =>
        let q := set_num_wr (int_sub (num_wr q) 1) q in
        match push_resolve rc q code data with
        | Returns (ret, q, sigs) =>
            Returns {| ret := ret; after := Some q;
                       unused := ws; sent := sigs |}
        | NoReturn => NoReturn
        | Undefined => Undefined
        end
    | NoReturn => NoReturn
    | Undefined => Undefined
    end = Returns r).
  { destruct (timeout <? 0); eauto. }
  clear Hr. destruct Hw as [abstime Hw].
  destruct (wait_loop abstime push_blocked (wakes o) 0 q1)
    as [[[rc qe] ws]| |] eqn:Hloop; try discriminate.
  apply wait_loop_returns in Hloop as (used & Hws & -> & _).
  exists used. cbv zeta in Hw.
  change (set_num_wr (int_sub (num_wr (env_run used q1)) 1) (env_run used q1))
    with (push_woken used q) in Hw.
  set (qw := push_woken used q) in *. cbv zeta.
  destruct (push_resolve rc qw code data) as [[[rt q'] sigs]| |] eqn:Hres;
    try discriminate.
  injection Hw as <-. simpl. split; [exact Hws|].
  apply push_resolve_returns in Hres. exact Hres.
Qed.

(** A pop that returns either failed to take the mutex, or left its wait
    loop after some wake-ups and then either took the element at the head
    and returned [MTMQ_RC_OK], or touched nothing and stored nothing. *)
Lemma pop_returns o q timeout r :
  mtmq_pop o (Some q) timeout = Returns r ->
  (lock_rc o <> 0 /\
   r = {| ret := (MTMQ_RC_ERROR, None); after := Some q;
          unused := wakes o; sent := [] |}) \/
  (lock_rc o = 0 /\
   exists used, wakes o = used ++ unused r /\
     let qw := pop_woken used q in
     (fst (ret r) <> MTMQ_RC_OK /\ snd (ret r) = None /\
      after r = Some qw /\ sent r = [] /\
      num qw = 0 /\ (fst (ret r) = MTMQ_RC_FINALIZED <-> fin qw <> 0)) \/
     (fst (ret r) = MTMQ_RC_OK /\ num qw <> 0 /\
      exists e,
        load (arr qw) (first qw) = Some e /\ snd (ret r) = Some e /\
        after r = Some (dequeued qw))).
Proof.
  unfold mtmq_pop.
  destruct (Z.eqb_spec (lock_rc o) 0) as [Hl|Hl]; simpl negb; cbv iota.
  2:{ intros [= <-]. left. auto. }
  intros Hr. right. split; [exact Hl|].
  set (q1 := set_num_rd (int_add (num_rd q) 1) q) in *.
  assert (Hw : exists abstime,
    match wait_loop abstime pop_blocked (wakes o) 0 q1 with
    | Returns (rc, q, ws) =>
        let q := set_num_rd (int_sub (num_rd q) 1) q in
        match pop_resolve rc q with
        | Returns (ret, out, q, sigs) =>
            Returns {| ret := (ret, out); after := Some q;
                       unused := ws; sent := sigs |}
        | NoReturn => NoReturn
        | Undefined => Undefined
        end
    | NoReturn => NoReturn
    | Undefined => Undefined
    end = Returns r).
  { destruct (timeout <? 0); eauto. }
  clear Hr. destruct Hw as [abstime Hw].
  destruct (wait_loop abstime pop_blocked (wakes o) 0 q1)
    as [[[rc qe] ws]| |] eqn:Hloop; try discriminate.
  apply wait_loop_returns in Hloop as (used & Hws & -> & _).
  exists used. cbv zeta in Hw.
  change (set_num_rd (int_sub (num_rd (env_run used q1)) 1) (env_run used q1))
    with (pop_woken used q) in Hw.
  set (qw := pop_woken used q) in *. cbv zeta.
  destruct (pop_resolve rc qw) as [[[[rt out] q'] sigs]| |] eqn:Hres;
    try discriminate.
  injection Hw as <-. simpl. split; [exact Hws|].
  apply pop_resolve_returns in Hres. exact Hres.
Qed.
End Calls.

(** ** The queue a waiter wakes up to *)

Lemma push_woken_quiet used q :
  Forall (fun w => forall q, wk_env w q = q) used ->
  push_woken used q = set_num_wr (wrap 32 (num_wr q)) q.
Proof.
  intros Hq. unfold push_woken. rewrite env_run_quiet by exact Hq.
  cbv zeta. simpl. rewrite int_incr_decr. reflexivity.
Qed.

Lemma pop_woken_quiet used q :
  Forall (fun w => forall q, wk_env w q = q) used ->
  pop_woken used q = set_num_rd (wrap 32 (num_rd q)) q.
Proof.
  intros Hq. unfold pop_woken. rewrite env_run_quiet by exact Hq.
  cbv zeta. simpl. rewrite int_incr_decr. reflexivity.
Qed.

(** A property of the queue that does not read the counters of waiting
    threads and that the other threads keep holds when the waiter wakes. *)
Lemma push_woken_keeps (I : mtmq -> Prop) used q :
  (forall v q, I q -> I (set_num_wr v q)) ->
  Forall (fun w => forall q, I q -> I (wk_env w q)) used ->
  I q -> I (push_woken used q).
Proof.
  intros Hset Hr Hq. unfold push_woken. cbv zeta.
  apply Hset, (env_run_preserves I); [exact Hr|]. apply Hset, Hq.
Qed.

Lemma pop_woken_keeps (I : mtmq -> Prop) used q :
  (forall v q, I q -> I (set_num_rd v q)) ->
  Forall (fun w => forall q, I q -> I (wk_env w q)) used ->
  I q -> I (pop_woken used q).
Proof.
  intros Hset Hr Hq. unfold pop_woken. cbv zeta.
  apply Hset, (env_run_preserves I); [exact Hr|]. apply Hset, Hq.
Qed.

Lemma Forall_prefix {A} (F : A -> Prop) (l1 l2 : list A) :
  Forall F (l1 ++ l2) -> Forall F l1.
Proof. intros H. apply Forall_app in H. tauto. Qed.

(** ** Creation *)

Lemma create_some malloc_ok setclock_rc c q :
  mtmq_create malloc_ok setclock_rc c = Some q ->
  q = {| num_rd := 0; num_wr := 0; fin := 0; num := 0; first := 0; last := 0;
         size := c;
         arr := replicate (Z.to_nat c) {| code := 0; data := 0 |} |}.
Proof.
  unfold mtmq_create. destruct malloc_ok; simpl; [|discriminate].
  destruct (setclock_rc =? 0); simpl; [|discriminate].
  intros [= <-]. reflexivity.
Qed.

Lemma create_well_formed malloc_ok setclock_rc c q :
  1 <= c ->
  mtmq_create malloc_ok setclock_rc c = Some q ->
  well_formed c q /\ contents q = [] /\ fin q = 0.
Proof.
  intros Hc Hq. apply create_some in Hq. subst q.
  unfold well_formed, ring_inv, arr_ok, contents; simpl.
  rewrite length_replicate.
  repeat split; try lia.
Qed.

(** ** One call on a well-formed queue *)

Section Steps.
Context `{P : Platform}.
Variable c : Z.
Hypothesis Hmax : c <= INT_MAX.

Lemma enqueued_well_formed q a e :
  well_formed c q -> num q < size q ->
  store (arr q) (last q) e = Some a ->
  well_formed c (enqueued q a) /\ contents (enqueued q a) = contents q ++ [e].
Proof using Hmax.
  intros [Hring Harr] Hlt Hst.
  apply store_some in Hst as [_ ->].
  assert (Hs : size q = c) by apply Hring.
  split; [split|].
  - apply enqueued_ring; [assumption | assumption | lia].
  - apply enqueued_arr_ok; assumption.
  - apply (enqueued_contents c); [assumption | assumption | assumption | lia].
Qed.

Lemma dequeued_well_formed q e :
  well_formed c q -> num q <> 0 ->
  load (arr q) (first q) = Some e ->
  well_formed c (dequeued q) /\ contents q = e :: contents (dequeued q).
Proof using Hmax.
  intros [Hring Harr] Hne Hld.
  split; [split|].
  - apply dequeued_ring; assumption.
  - apply dequeued_arr_ok; assumption.
  - destruct (dequeued_contents c q Hring Hmax Harr Hne) as (e' & He' & Hc).
    congruence.
Qed.

(** On a well-formed queue the element array is never left. *)
Lemma push_resolve_defined rc q code data :
  well_formed c q -> push_resolve rc q code data <> Undefined.
Proof.
  intros [(Hs & Hn & Hf & Hl & Hm) Harr]. unfold push_resolve.
  destruct (negb (fin q =? 0)); [discriminate|].
  destruct (num q <? size q).
  - rewrite store_in_range by (unfold arr_ok in Harr; lia). discriminate.
  - destruct (rc =? ETIMEDOUT); [|destruct (rc =? EINTR)]; discriminate.
Qed.

Lemma pop_resolve_defined rc q :
  well_formed c q -> pop_resolve rc q <> Undefined.
Proof.
  intros [(Hs & Hn & Hf & Hl & Hm) Harr]. unfold pop_resolve.
  destruct (negb (num q =? 0)).
  - destruct (load_in_range (arr q) (first q)) as [e ->];
      [unfold arr_ok in Harr; lia | discriminate].
  - destruct (negb (fin q =? 0)); [discriminate|].
    destruct (rc =? ETIMEDOUT); [|destruct (rc =? EINTR)]; discriminate.
Qed.

(** A push keeps the ring invariant, whatever the other threads do
    within [rely]. *)
Lemma push_preserves o q code data timeout r :
  ring_inv c q -> rely (ring_inv c) o ->
  mtmq_push o (Some q) code data timeout = Returns r ->
  exists q', after r = Some q' /\ ring_inv c q'.
Proof using Hmax.
  intros Hq Hrely Hr.
  apply push_returns in Hr as [[_ ->] | (_ & used & Hws & Hcases)].
  - exists q. auto.
  - unfold rely in Hrely. rewrite Hws in Hrely.
    apply Forall_prefix in Hrely.
    assert (Hqw : ring_inv c (push_woken used q)).
    { apply push_woken_keeps; [auto | exact Hrely | exact Hq]. }
    cbv zeta in Hcases.
    destruct Hcases as [(_ & -> & _) | (_ & _ & Hlt & a & Hst & ->)].
    + eauto.
    + eexists. split; [reflexivity|].
      apply enqueued_ring; [assumption | assumption |].
      destruct Hqw as [<- _]. exact Hlt.
Qed.

Lemma pop_preserves o q timeout r :
  ring_inv c q -> rely (ring_inv c) o ->
  mtmq_pop o (Some q) timeout = Returns r ->
  exists q', after r = Some q' /\ ring_inv c q'.
Proof using Hmax.
  intros Hq Hrely Hr.
  apply pop_returns in Hr as [[_ ->] | (_ & used & Hws & Hcases)].
  - exists q. auto.
  - unfold rely in Hrely. rewrite Hws in Hrely.
    apply Forall_prefix in Hrely.
    assert (Hqw : ring_inv c (pop_woken used q)).
    { apply pop_woken_keeps; [auto | exact Hrely | exact Hq]. }
    cbv zeta in Hcases.
    destruct Hcases as [(_ & _ & -> & _) | (_ & Hne & e & Hld & _ & ->)].
    + eauto.
    + eexists. split; [reflexivity|].
      apply dequeued_ring; assumption.
Qed.


End Steps.

(** ** Null handles *)

(** C10.  [mtmq_is_finalized] called with a null queue handle returns 1: a
    null queue reports itself as finalized, its answer being the one of a
    queue that [mtmq_finalize] has just finalized. *)
Theorem is_finalized_null :
  fst (mtmq_is_finalized None) = 1 /\
  forall q,
    fst (mtmq_is_finalized (fst (mtmq_finalize (Some (set_fin 0 q)))))
    = fst (mtmq_is_finalized None).
Proof.
  split; [reflexivity|]. intros q. reflexivity.
Qed.

(** C7 does not hold as stated: the answer of [mtmq_is_finalized] on a null
    handle is not [MTMQ_RC_ERROR]; it is the answer a finalized queue
    gives. *)
Lemma is_finalized_null_not_error :
  fst (mtmq_is_finalized None) <> MTMQ_RC_ERROR /\
  fst (mtmq_is_finalized None) = fst (mtmq_is_finalized (Some sample_finalized)).
Proof. split; [discriminate | reflexivity]. Qed.

(** C7, amended.  With a null queue handle, [mtmq_push], [mtmq_pop] and
    [mtmq_destroy] return [MTMQ_RC_ERROR] without waiting, signalling or
    storing anything; [mtmq_finalize] returns without any effect; and
    [mtmq_is_finalized] returns 1, the answer of a finalized queue. *)
Theorem null_handle `{P : Platform} :
  (forall o code data timeout,
     mtmq_push o None code data timeout =
     Returns {| ret := MTMQ_RC_ERROR; after := None;
                unused := wakes o; sent := [] |}) /\
  (forall o timeout,
     mtmq_pop o None timeout =
     Returns {| ret := (MTMQ_RC_ERROR, None); after := None;
                unused := wakes o; sent := [] |}) /\
  (forall rc_wr rc_rd rc_mtx,
     mtmq_destroy rc_wr rc_rd rc_mtx None = (MTMQ_RC_ERROR, None)) /\
  mtmq_finalize None = (None, []) /\
  mtmq_is_finalized None = (1, None).
Proof. repeat split. Qed.

(** ** Creation with capacity 0 *)

(** C6 does not hold: with capacity 0, when the allocation and the clock
    attribute succeed, [mtmq_create] returns a queue, not a null handle. *)
Lemma create_zero_not_rejected :
  mtmq_create true 0 0 =
  Some {| num_rd := 0; num_wr := 0; fin := 0; num := 0; first := 0;
          last := 0; size := 0; arr := [] |}.
Proof. reflexivity. Qed.

(** C6, amended.  [mtmq_create] does not look at the capacity: with
    capacity 0 it returns a null handle exactly when the allocation or
    [pthread_condattr_setclock] fails, and otherwise a handle to an empty
    queue of size 0 with no slot. *)
Theorem create_zero (malloc_ok : bool) (setclock_rc : Z) :
  mtmq_create malloc_ok setclock_rc 0 =
  if malloc_ok && (setclock_rc =? 0)
  then Some {| num_rd := 0; num_wr := 0; fin := 0; num := 0; first := 0;
               last := 0; size := 0; arr := [] |}
  else None.
Proof.
  unfold mtmq_create. destruct malloc_ok; simpl; [|reflexivity].
  destruct (setclock_rc =? 0); reflexivity.
Qed.

(** On a queue whose count has reached its size, a push of a thread that is
    alone never returns [MTMQ_RC_OK]; so it is on the queue of size 0. *)
Lemma push_full_alone `{P : Platform} o q code data timeout r :
  size q <= num q -> quiet o ->
  mtmq_push o (Some q) code data timeout = Returns r ->
  ret r <> MTMQ_RC_OK.
Proof.
  intros Hfull Hquiet Hr.
  apply push_returns in Hr as [[_ ->] | (_ & used & Hws & Hcases)].
  - discriminate.
  - unfold quiet in Hquiet. rewrite Hws in Hquiet.
    apply Forall_prefix in Hquiet.
    rewrite (push_woken_quiet used q Hquiet) in Hcases. cbv zeta in Hcases.
    destruct Hcases as [[Hne _] | (_ & _ & Hlt & _)]; [exact Hne|].
    simpl in Hlt. lia.
Qed.

Example push_zero_capacity_times_out :
  @mtmq_push LP64 sample_oracle (mtmq_create true 0 0) 1 10 100 =
  Returns {| ret := MTMQ_RC_TIMEDOUT; after := mtmq_create true 0 0;
             unused := []; sent := [] |}.
Proof. reflexivity. Qed.

(** ** Finalization *)

Lemma finalize_finalized q :
  exists q', fst (mtmq_finalize (Some q)) = Some q' /\ finalized q' /\
             observable q' = (fin q', num q, first q, last q, size q, arr q).
Proof.
  unfold mtmq_finalize, finalized.
  destruct (Z.eqb_spec (fin q) 0) as [Hf|Hf]; simpl.
  - eexists. split; [reflexivity|]. simpl. split; [discriminate | reflexivity].
  - exists q. auto.
Qed.

(** C3.  On a finalized queue a push that takes the mutex returns
    [MTMQ_RC_FINALIZED] without waiting and without sending a signal, and
    the queue holds what it held, also when [num < size]. *)
Theorem push_after_finalize `{P : Platform} (o : oracle) (q : mtmq)
    (code : Z) (data : ptr) (timeout : Z) :
  finalized q -> lock_rc o = 0 ->
  exists q',
    mtmq_push o (Some q) code data timeout =
    Returns {| ret := MTMQ_RC_FINALIZED; after := Some q';
               unused := wakes o; sent := [] |} /\
    observable q' = observable q /\ contents q' = contents q.
Proof.
  intros Hf Hl. eexists. split; [apply push_finalized; assumption|].
  split; reflexivity.
Qed.

(** A push on the finalized sample queue, which has a free slot. *)
Lemma push_after_finalize_witness :
  (finalized sample_finalized /\ lock_rc sample_oracle = 0 /\
   num sample_finalized < size sample_finalized) /\
  exists q',
    @mtmq_push LP64 sample_oracle (Some sample_finalized) 9 90 (-1) =
    Returns {| ret := MTMQ_RC_FINALIZED; after := Some q';
               unused := wakes sample_oracle; sent := [] |} /\
    observable q' = observable sample_finalized /\
    contents q' = contents sample_finalized.
Proof.
  split.
  - split; [discriminate | split; reflexivity].
  - apply (@push_after_finalize LP64 sample_oracle sample_finalized 9 90 (-1)).
    + discriminate.
    + reflexivity.
Defined.

(** C5.  [mtmq_finalize] is idempotent: a second call leaves the queue as
    the first one left it and sends no broadcast.  The flag is monotonic:
    on a finalized queue, whatever [mtmq_push], [mtmq_pop], [mtmq_finalize]
    or [mtmq_is_finalized] returns, the queue is still finalized. *)
Theorem finalize_idempotent_monotonic `{P : Platform} :
  (forall h,
     mtmq_finalize (fst (mtmq_finalize h)) = (fst (mtmq_finalize h), [])) /\
  (forall q, finalized q ->
     (forall o code data timeout r,
        mtmq_push o (Some q) code data timeout = Returns r ->
        exists q', after r = Some q' /\ finalized q') /\
     (forall o timeout r,
        mtmq_pop o (Some q) timeout = Returns r ->
        exists q', after r = Some q' /\ finalized q') /\
     (exists q', fst (mtmq_finalize (Some q)) = Some q' /\ finalized q') /\
     snd (mtmq_is_finalized (Some q)) = Some q).
Proof.
  split.
  - intros [q|]; [|reflexivity]. unfold mtmq_finalize.
    destruct (Z.eqb_spec (fin q) 0) as [Hf|Hf]; simpl.
    + reflexivity.
    + destruct (Z.eqb_spec (fin q) 0); [contradiction | reflexivity].
  - intros q Hf. unfold finalized in *. repeat split.
    + intros o code data timeout r Hr.
      destruct (Z.eq_dec (lock_rc o) 0) as [Hl|Hl].
      * rewrite push_finalized in Hr by assumption.
        injection Hr as <-. simpl. eauto.
      * apply push_returns in Hr as [[_ ->] | [Hl' _]]; [|contradiction].
        simpl. eauto.
    + intros o timeout r Hr.
      destruct (Z.eq_dec (lock_rc o) 0) as [Hl|Hl].
      * destruct (Z.eq_dec (num q) 0) as [Hn|Hn].
        -- rewrite pop_finalized_empty in Hr by assumption.
           injection Hr as <-. simpl. eauto.
        -- rewrite pop_some in Hr by assumption.
           destruct (load (arr q) (first q)); [|discriminate].
           injection Hr as <-. simpl. eauto.
      * apply pop_returns in Hr as [[_ ->] | [Hl' _]]; [|contradiction].
        simpl. eauto.
    + destruct (finalize_finalized q) as (q' & Hq' & Hfin & _). eauto.
Qed.

(** A push on the finalized sample queue leaves it finalized. *)
Lemma finalize_idempotent_monotonic_witness :
  finalized sample_finalized /\
  (@mtmq_push LP64 sample_oracle (Some sample_finalized) 9 90 5 =
   Returns {| ret := MTMQ_RC_FINALIZED; after := Some sample_finalized;
              unused := []; sent := [] |}) /\
  exists q', Some sample_finalized = Some q' /\ finalized q'.
Proof.
  assert (Hf : finalized sample_finalized) by discriminate.
  split; [exact Hf|]. split; [reflexivity|].
  destruct (@finalize_idempotent_monotonic LP64) as [_ Hmono].
  destruct (Hmono sample_finalized Hf) as (Hpush & _).
  exact (Hpush sample_oracle 9 90 5 _ eq_refl).
Defined.

(** ** Runs of a thread that is alone *)

Lemma contents_observable q q' :
  observable q' = observable q -> contents q' = contents q.
Proof.
  unfold observable, contents. intros [= _ -> -> _ -> ->]. reflexivity.
Qed.

Lemma contents_empty q : num q = 0 -> contents q = [].
Proof. intros Hn. unfold contents. rewrite Hn. reflexivity. Qed.

Lemma finalize_keeps c q :
  well_formed c q ->
  exists q' sigs,
    mtmq_finalize (Some q) = (Some q', sigs) /\
    well_formed c q' /\ contents q' = contents q /\ finalized q'.
Proof.
  intros Hq. unfold mtmq_finalize, finalized.
  destruct (Z.eqb_spec (fin q) 0) as [Hf|Hf].
  - eexists _, _. split; [reflexivity|]. split; [exact Hq|].
    split; [reflexivity | discriminate].
  - eexists _, _. split; [reflexivity|]. auto.
Qed.

#[local] Arguments mtmq_push : simpl never.
#[local] Arguments mtmq_pop : simpl never.
#[local] Arguments mtmq_finalize : simpl never.

Section Runs.
Context `{P : Platform}.
Variable c : Z.
Hypothesis Hmax : c <= INT_MAX.


(** The pops that follow finalization deliver the buffered elements,
    oldest first, and [MTMQ_RC_FINALIZED] from then on. *)
Lemma run_drain cs :
  Forall locked_pop cs ->
  forall q, well_formed c q -> finalized q ->
    fst (run cs q) =
    map (fun e => Popped MTMQ_RC_OK (Some e)) (take (length cs) (contents q))
    ++ replicate (length cs - length (contents q))
         (Popped MTMQ_RC_FINALIZED None).
Proof using Hmax.
  intros Hcs. induction Hcs as [|cl cs Hcl _ IH]; intros q Hq Hf.
  - reflexivity.
  - destruct cl as [o code data timeout | o timeout | |]; simpl in Hcl;
      try contradiction.
    simpl run. destruct (Z.eq_dec (num q) 0) as [Hn|Hn].
    + rewrite pop_finalized_empty by assumption.
      cbn [after ret from_option id].
      set (q' := set_num_rd _ q).
      assert (Hq' : well_formed c q') by exact Hq.
      specialize (IH q' Hq' Hf).
      destruct (run cs q') as [log qf]. simpl in IH |- *.
      rewrite (contents_empty q Hn).
      rewrite (contents_empty q') in IH by exact Hn.
      rewrite take_nil, Nat.sub_0_r in IH. simpl in IH |- *.
      rewrite IH. reflexivity.
    + rewrite pop_some by assumption.
      destruct (dequeued_contents c q (proj1 Hq) Hmax (proj2 Hq) Hn)
        as (e & He & Hc).
      rewrite He. cbv zeta.
      set (qw := set_num_rd (wrap 32 (num_rd q)) q).
      assert (Hqw : well_formed c qw) by exact Hq.
      destruct (dequeued_well_formed c Hmax qw e Hqw Hn He) as [Hq' Hc'].
      change (contents qw) with (contents q) in Hc'.
      change (set_num (int_sub (num q) 1) (set_first (advance q (first q)) qw))
        with (dequeued qw).
      assert (Hf' : finalized (dequeued qw)) by exact Hf.
      specialize (IH (dequeued qw) Hq' Hf').
      cbn [after ret from_option id].
      destruct (run cs (dequeued qw)) as [log qf]. simpl in IH |- *.
      rewrite Hc'. simpl. f_equal. exact IH.
Qed.

(** Whatever the queue holds when it is finalized is delivered by the pops
    that follow, before the first [MTMQ_RC_FINALIZED]. *)
Lemma finalize_then_drain cs q :
  Forall locked_pop cs -> well_formed c q ->
  exists sigs,
    fst (run (Finalize :: cs) q) =
    Closed sigs
    :: map (fun e => Popped MTMQ_RC_OK (Some e))
         (take (length cs) (contents q))
    ++ replicate (length cs - length (contents q))
         (Popped MTMQ_RC_FINALIZED None).
Proof using Hmax.
  intros Hcs Hq.
  destruct (finalize_keeps c q Hq) as (q' & sigs & Hfin & Hq' & Hc & Hf).
  exists sigs. simpl run. rewrite Hfin. simpl default.
  pose proof (run_drain cs Hcs q' Hq' Hf) as Hdrain.
  destruct (run cs q') as [log qf]. simpl in Hdrain |- *.
  rewrite Hdrain, Hc. reflexivity.
Qed.
End Runs.

(** ** No access outside the element array *)

Section Defined.
Context `{P : Platform}.
Variable c : Z.

Lemma push_defined o q code data timeout :
  well_formed c q -> rely (well_formed c) o ->
  mtmq_push o (Some q) code data timeout <> Undefined.
Proof.
  intros Hq Hrely. unfold mtmq_push.
  destruct (negb (lock_rc o =? 0)); [discriminate|].
  set (q1 := set_num_wr (int_add (num_wr q) 1) q).
  assert (Hgen : forall abstime,
    match wait_loop abstime push_blocked (wakes o) 0 q1 with
    | Returns (rc, q, ws) =>
        let q := set_num_wr (int_sub (num_wr q) 1) q in
        match push_resolve rc q code data with
        | Returns (ret, q, sigs) =>
            Returns {| ret := ret; after := Some q;
                       unused := ws; sent := sigs |}
        | NoReturn => NoReturn
        | Undefined => Undefined
        end
    | NoReturn => NoReturn
    | Undefined => Undefined
    end <> Undefined).
  { intros abstime.
    destruct (wait_loop abstime push_blocked (wakes o) 0 q1)
      as [[[rc qe] ws]| |] eqn:Hloop.
    - apply wait_loop_returns in Hloop as (used & Hws & -> & _).
      unfold rely in Hrely. rewrite Hws in Hrely.
      apply Forall_prefix in Hrely. cbv zeta.
      assert (Hqw : well_formed c (push_woken used q)).
      { apply push_woken_keeps; [auto | exact Hrely | exact Hq]. }
      pose proof (push_resolve_defined c rc _ code data Hqw) as Hdef.
      unfold push_woken in Hdef. cbv zeta in Hdef. fold q1 in Hdef.
      destruct (push_resolve rc _ code data) as [[[rt q'] sigs]| |];
        [discriminate | discriminate | contradiction].
    - discriminate.
    - exfalso. exact (wait_loop_defined _ _ _ _ _ Hloop). }
  destruct (timeout <? 0); apply Hgen.
Qed.

Lemma pop_defined o q timeout :
  well_formed c q -> rely (well_formed c) o ->
  mtmq_pop o (Some q) timeout <> Undefined.
Proof.
  intros Hq Hrely. unfold mtmq_pop.
  destruct (negb (lock_rc o =? 0)); [discriminate|].
  set (q1 := set_num_rd (int_add (num_rd q) 1) q).
  assert (Hgen : forall abstime,
    match wait_loop abstime pop_blocked (wakes o) 0 q1 with
    | Returns (rc, q, ws) =>
        let q := set_num_rd (int_sub (num_rd q) 1) q in
        match pop_resolve rc q with
        | Returns (ret, out, q, sigs) =>
            Returns {| ret := (ret, out); after := Some q;
                       unused := ws; sent := sigs |}
        | NoReturn => NoReturn
        | Undefined => Undefined
        end
    | NoReturn => NoReturn
    | Undefined => Undefined
    end <> Undefined).
  { intros abstime.
    destruct (wait_loop abstime pop_blocked (wakes o) 0 q1)
      as [[[rc qe] ws]| |] eqn:Hloop.
    - apply wait_loop_returns in Hloop as (used & Hws & -> & _).
      unfold rely in Hrely. rewrite Hws in Hrely.
      apply Forall_prefix in Hrely. cbv zeta.
      assert (Hqw : well_formed c (pop_woken used q)).
      { apply pop_woken_keeps; [auto | exact Hrely | exact Hq]. }
      pose proof (pop_resolve_defined c rc _ Hqw) as Hdef.
      unfold pop_woken in Hdef. cbv zeta in Hdef. fold q1 in Hdef.
      destruct (pop_resolve rc _) as [[[[rt out] q'] sigs]| |];
        [discriminate | discriminate | contradiction].
    - discriminate.
    - exfalso. exact (wait_loop_defined _ _ _ _ _ Hloop). }
  destruct (timeout <? 0); apply Hgen.
Qed.

(** With a deadline a call on a well-formed queue returns. *)
Lemma push_timed_returns o q code data timeout :
  ETIMEDOUT <> 0 -> 0 <= timeout ->
  well_formed c q -> rely (well_formed c) o ->
  exists r, mtmq_push o (Some q) code data timeout = Returns r.
Proof.
  intros Hne Ht Hq Hrely.
  pose proof (push_defined o q code data timeout Hq Hrely) as Hdef.
  revert Hdef. unfold mtmq_push.
  destruct (negb (lock_rc o =? 0)); [eauto|].
  destruct (Z.ltb_spec timeout 0); [lia|]. cbv zeta.
  destruct (wait_loop_timed_returns (calc_abs_timeout (clock o) timeout)
              push_blocked (wakes o) 0
              (set_num_wr (int_add (num_wr q) 1) q) Hne) as [[[rc qe] ws] ->].
  destruct (push_resolve rc _ code data) as [[[rt q'] sigs]| |] eqn:Hres.
  - eauto.
  - exfalso. revert Hres. unfold push_resolve.
    repeat match goal with
           | |- context [if ?b then _ else _] => destruct b
           | |- context [match ?x with Some _ => _ | None => _ end] =>
               destruct x
           end; discriminate.
  - congruence.
Qed.

Lemma pop_timed_returns o q timeout :
  ETIMEDOUT <> 0 -> 0 <= timeout ->
  well_formed c q -> rely (well_formed c) o ->
  exists r, mtmq_pop o (Some q) timeout = Returns r.
Proof.
  intros Hne Ht Hq Hrely.
  pose proof (pop_defined o q timeout Hq Hrely) as Hdef.
  revert Hdef. unfold mtmq_pop.
  destruct (negb (lock_rc o =? 0)); [eauto|].
  destruct (Z.ltb_spec timeout 0); [lia|]. cbv zeta.
  destruct (wait_loop_timed_returns (calc_abs_timeout (clock o) timeout)
              pop_blocked (wakes o) 0
              (set_num_rd (int_add (num_rd q) 1) q) Hne) as [[[rc qe] ws] ->].
  destruct (pop_resolve rc _) as [[[[rt out] q'] sigs]| |] eqn:Hres.
  - eauto.
  - exfalso. revert Hres. unfold pop_resolve.
    repeat match goal with
           | |- context [if ?b then _ else _] => destruct b
           | |- context [match ?x with Some _ => _ | None => _ end] =>
               destruct x
           end; discriminate.
  - congruence.
Qed.
End Defined.

(** ** Order of delivery *)



(** The run of the sample calls: three elements go in and come out in the
    order they went in, the last two after the finalization. *)
Example sample_run :
  fst (@run LP64 sample_calls sample_created) =
  [Pushed MTMQ_RC_OK {| code := 1; data := 10 |};
   Pushed MTMQ_RC_OK {| code := 2; data := 20 |};
   Pushed MTMQ_RC_TIMEDOUT {| code := 3; data := 30 |};
   Popped MTMQ_RC_OK (Some {| code := 1; data := 10 |});
   Pushed MTMQ_RC_OK {| code := 4; data := 40 |};
   Asked 0; Closed []; Asked 1;
   Pushed MTMQ_RC_FINALIZED {| code := 5; data := 50 |};
   Popped MTMQ_RC_OK (Some {| code := 2; data := 20 |});
   Popped MTMQ_RC_OK (Some {| code := 4; data := 40 |});
   Popped MTMQ_RC_FINALIZED None].
Proof. reflexivity. Qed.

(** ** Draining a finalized queue *)

(** C2.  On a finalized queue, a pop that takes the mutex does not wait,
    whatever its timeout: while an element is buffered it returns
    [MTMQ_RC_OK] with the oldest one, and on the empty queue it returns
    [MTMQ_RC_FINALIZED] and changes nothing.  Hence successive pops deliver
    every element buffered at finalization, oldest first, before the first
    [MTMQ_RC_FINALIZED], and only [MTMQ_RC_FINALIZED] after. *)
Theorem pop_after_finalize `{P : Platform} (c : Z) (q : mtmq) :
  c <= INT_MAX -> well_formed c q -> finalized q ->
  (forall o timeout, lock_rc o = 0 -> num q > 0 ->
     exists e q' sigs,
       mtmq_pop o (Some q) timeout =
       Returns {| ret := (MTMQ_RC_OK, Some e); after := Some q';
                  unused := wakes o; sent := sigs |} /\
       contents q = e :: contents q' /\
       well_formed c q' /\ finalized q') /\
  (forall o timeout, lock_rc o = 0 -> num q = 0 ->
     exists q',
       mtmq_pop o (Some q) timeout =
       Returns {| ret := (MTMQ_RC_FINALIZED, None); after := Some q';
                  unused := wakes o; sent := [] |} /\
       observable q' = observable q) /\
  (forall cs, Forall locked_pop cs ->
     fst (run cs q) =
     map (fun e => Popped MTMQ_RC_OK (Some e)) (take (length cs) (contents q))
     ++ replicate (length cs - length (contents q))
          (Popped MTMQ_RC_FINALIZED None)).
Proof.
  intros Hmax Hq Hf. split; [|split].
  - intros o timeout Hl Hn.
    assert (Hne : num q <> 0) by lia.
    rewrite (pop_some o q timeout Hne Hl).
    set (qw := set_num_rd (wrap 32 (num_rd q)) q).
    assert (Hqw : well_formed c qw) by exact Hq.
    destruct (load_in_range (arr q) (first q)) as [e He].
    { destruct Hq as [(Hs & _ & Hfi & _) Harr]. unfold arr_ok in Harr. lia. }
    rewrite He. cbv zeta.
    destruct (dequeued_well_formed c Hmax qw e Hqw Hne He) as [Hq' Hc].
    exists e, (dequeued qw), (if negb (num_wr q =? 0) then [SignalWr] else []).
    split; [reflexivity|]. split; [exact Hc|]. split; [exact Hq' | exact Hf].
  - intros o timeout Hl Hn.
    rewrite (pop_finalized_empty o q timeout Hf Hn Hl).
    eexists. split; reflexivity.
  - intros cs Hcs. apply (run_drain c Hmax cs Hcs q Hq Hf).
Qed.

(** Three pops on the finalized sample queue, which holds one element. *)
Lemma pop_after_finalize_witness :
  (2 <= INT_MAX /\ well_formed 2 sample_finalized /\
   finalized sample_finalized /\ Forall locked_pop sample_pops) /\
  fst (@run LP64 sample_pops sample_finalized) =
  [Popped MTMQ_RC_OK (Some {| code := 7; data := 70 |});
   Popped MTMQ_RC_FINALIZED None; Popped MTMQ_RC_FINALIZED None].
Proof.
  assert (Hmax : 2 <= INT_MAX) by (unfold INT_MAX; lia).
  assert (Hwf : well_formed 2 sample_finalized).
  { unfold well_formed, ring_inv, arr_ok; simpl. repeat split; lia. }
  assert (Hf : finalized sample_finalized) by discriminate.
  assert (Hcs : Forall locked_pop sample_pops) by (repeat constructor).
  split; [auto|].
  destruct (@pop_after_finalize LP64 2 sample_finalized Hmax Hwf Hf)
    as (_ & _ & Hdrain).
  rewrite (Hdrain sample_pops Hcs). reflexivity.
Defined.

(** ** The ring invariant *)

(** C4.  A queue created with a capacity [c] between 1 and [INT_MAX]
    satisfies the ring invariant ([0 <= num <= c], [first] and [last] in
    [0, c), [num = last - first] modulo [c]), and whatever [mtmq_push],
    [mtmq_pop], [mtmq_finalize] or [mtmq_is_finalized] returns, the queue
    satisfies it still, the other threads keeping it while a call waits. *)
Theorem ring_invariant `{P : Platform} (c : Z) :
  1 <= c <= INT_MAX ->
  (forall malloc_ok setclock_rc q,
     mtmq_create malloc_ok setclock_rc c = Some q -> ring_inv c q) /\
  (forall q, ring_inv c q ->
     (forall o code data timeout r,
        rely (ring_inv c) o ->
        mtmq_push o (Some q) code data timeout = Returns r ->
        exists q', after r = Some q' /\ ring_inv c q') /\
     (forall o timeout r,
        rely (ring_inv c) o ->
        mtmq_pop o (Some q) timeout = Returns r ->
        exists q', after r = Some q' /\ ring_inv c q') /\
     (exists q', fst (mtmq_finalize (Some q)) = Some q' /\ ring_inv c q') /\
     snd (mtmq_is_finalized (Some q)) = Some q).
Proof.
  intros [Hc Hmax]. split.
  - intros malloc_ok setclock_rc q Hq.
    apply (create_well_formed _ _ _ _ Hc Hq).
  - intros q Hq. repeat split.
    + intros o code data timeout r Hrely Hr.
      exact (push_preserves c Hmax _ _ _ _ _ _ Hq Hrely Hr).
    + intros o timeout r Hrely Hr.
      exact (pop_preserves c Hmax _ _ _ _ Hq Hrely Hr).
    + unfold mtmq_finalize. destruct (fin q =? 0); simpl; eauto.
Qed.

(** A push on the full sample queue that another thread finalizes. *)
Lemma ring_invariant_witness :
  (1 <= 2 <= INT_MAX /\ ring_inv 2 sample_full /\
   rely (ring_inv 2) sample_finalizing /\
   @mtmq_push LP64 sample_finalizing (Some sample_full) 9 90 (-1) =
   Returns {| ret := MTMQ_RC_FINALIZED; after := Some (set_fin 1 sample_full);
              unused := []; sent := [] |}) /\
  exists q', Some (set_fin 1 sample_full) = Some q' /\ ring_inv 2 q'.
Proof.
  assert (Hc : 1 <= 2 <= INT_MAX) by (unfold INT_MAX; lia).
  assert (Hq : ring_inv 2 sample_full).
  { unfold ring_inv; simpl. repeat split; lia. }
  assert (Hrely : rely (ring_inv 2) sample_finalizing).
  { constructor; [intros q0 Hinv; exact Hinv | constructor]. }
  split; [repeat split; solve [lia | apply Hc | apply Hq | exact Hrely]|].
  destruct (@ring_invariant LP64 2 Hc) as [_ Hkeep].
  destruct (Hkeep sample_full Hq) as (Hpush & _).
  exact (Hpush sample_finalizing 9 90 (-1) _ Hrely eq_refl).
Defined.

(** ** Calls that fail *)

(** Whatever the other threads do, a push that does not return
    [MTMQ_RC_OK] leaves the queue as it found it when its wait ended. *)
Lemma push_failed_woken `{P : Platform} o q code data timeout r :
  mtmq_push o (Some q) code data timeout = Returns r ->
  ret r <> MTMQ_RC_OK ->
  exists used q',
    wakes o = used ++ unused r /\ after r = Some q' /\ sent r = [] /\
    observable q' =
    observable (env_run used (set_num_wr (int_add (num_wr q) 1) q)).
Proof.
  intros Hr Hne.
  apply push_returns in Hr as [[_ ->] | (_ & used & Hws & Hcases)].
  - exists [], q. simpl. auto.
  - cbv zeta in Hcases. destruct Hcases as [(_ & Haft & Hs) | [Hok _]];
      [|contradiction].
    exists used, (push_woken used q). auto.
Qed.

Lemma pop_failed_woken `{P : Platform} o q timeout r :
  mtmq_pop o (Some q) timeout = Returns r ->
  fst (ret r) <> MTMQ_RC_OK ->
  exists used q',
    wakes o = used ++ unused r /\ after r = Some q' /\ sent r = [] /\
    snd (ret r) = None /\
    observable q' =
    observable (env_run used (set_num_rd (int_add (num_rd q) 1) q)).
Proof.
  intros Hr Hne.
  apply pop_returns in Hr as [[_ ->] | (_ & used & Hws & Hcases)].
  - exists [], q. simpl. auto.
  - cbv zeta in Hcases.
    destruct Hcases as [(_ & Hout & Haft & Hs & _) | [Hok _]];
      [|contradiction].
    exists used, (pop_woken used q). auto 6.
Qed.

(** C9 does not hold as stated: a call that waits releases the mutex, and
    what the other threads do meanwhile shows in the queue it returns on.
    A push waits on the full sample queue, another thread finalizes the
    queue, and the push returns [MTMQ_RC_FINALIZED]: the flag was 0 when the
    call began and is 1 when it returns. *)
Lemma push_blocked_then_finalized :
  @mtmq_push LP64 sample_finalizing (Some sample_full) 9 90 (-1) =
  Returns {| ret := MTMQ_RC_FINALIZED; after := Some (set_fin 1 sample_full);
             unused := []; sent := [] |} /\
  MTMQ_RC_FINALIZED <> MTMQ_RC_OK /\
  fin sample_full = 0 /\ fin (set_fin 1 sample_full) = 1 /\
  observable (set_fin 1 sample_full) <> observable sample_full.
Proof.
  split; [reflexivity|]. split; [discriminate|].
  split; [reflexivity|]. split; [reflexivity | discriminate].
Qed.

(** C9, amended.  A [mtmq_push] or [mtmq_pop] that returns anything but
    [MTMQ_RC_OK] has itself changed nothing of the element array, [first],
    [last], [num], [size] and [fin]: when it returns they are what the
    other threads made of them during the wake-ups [used] the call went
    through, starting from the queue the call began on (with the caller
    counted as waiting); and such a pop stores nothing through its output
    pointers.  When the other threads changed
    nothing during these wake-ups, the queue is exactly what it was when
    the call began. *)
Theorem failed_call_changes_nothing `{P : Platform} (o : oracle) (q : mtmq) :
  (forall code data timeout r,
     mtmq_push o (Some q) code data timeout = Returns r ->
     ret r <> MTMQ_RC_OK ->
     exists used q',
       wakes o = used ++ unused r /\ after r = Some q' /\
       observable q' =
       observable (env_run used (set_num_wr (int_add (num_wr q) 1) q)) /\
       contents q' =
       contents (env_run used (set_num_wr (int_add (num_wr q) 1) q)) /\
       (Forall (fun w => forall q, wk_env w q = q) used ->
        observable q' = observable q /\ contents q' = contents q)) /\
  (forall timeout r,
     mtmq_pop o (Some q) timeout = Returns r ->
     fst (ret r) <> MTMQ_RC_OK ->
     exists used q',
       wakes o = used ++ unused r /\ after r = Some q' /\
       snd (ret r) = None /\
       observable q' =
       observable (env_run used (set_num_rd (int_add (num_rd q) 1) q)) /\
       contents q' =
       contents (env_run used (set_num_rd (int_add (num_rd q) 1) q)) /\
       (Forall (fun w => forall q, wk_env w q = q) used ->
        observable q' = observable q /\ contents q' = contents q)).
Proof.
  split.
  - intros code data timeout r Hr Hne.
    destruct (push_failed_woken _ _ _ _ _ _ Hr Hne)
      as (used & q' & Hws & Haft & Hs & Hobs).
    exists used, q'. do 3 (split; [assumption|]).
    split; [apply contents_observable; exact Hobs|].
    intros Hstill. rewrite (env_run_quiet used _ Hstill) in Hobs.
    split; [exact Hobs | apply contents_observable; exact Hobs].
  - intros timeout r Hr Hne.
    destruct (pop_failed_woken _ _ _ _ Hr Hne)
      as (used & q' & Hws & Haft & Hs & Hout & Hobs).
    exists used, q'. do 4 (split; [assumption|]).
    split; [apply contents_observable; exact Hobs|].
    intros Hstill. rewrite (env_run_quiet used _ Hstill) in Hobs.
    split; [exact Hobs | apply contents_observable; exact Hobs].
Qed.

(** The push on the full sample queue that another thread finalizes while
    the push waits: the queue the push returns on is the full queue with
    the flag the other thread has set, and nothing else has changed. *)
Lemma failed_call_changes_nothing_witness :
  (@mtmq_push LP64 sample_finalizing (Some sample_full) 9 90 (-1) =
   Returns {| ret := MTMQ_RC_FINALIZED; after := Some (set_fin 1 sample_full);
              unused := []; sent := [] |} /\
   MTMQ_RC_FINALIZED <> MTMQ_RC_OK) /\
  exists used q',
    wakes sample_finalizing = used ++ [] /\
    Some (set_fin 1 sample_full) = Some q' /\
    observable q' =
    observable (env_run used
                  (set_num_wr (int_add (num_wr sample_full) 1) sample_full)) /\
    contents q' =
    contents (env_run used
                (set_num_wr (int_add (num_wr sample_full) 1) sample_full)) /\
    (Forall (fun w => forall q, wk_env w q = q) used ->
     observable q' = observable sample_full /\
     contents q' = contents sample_full).
Proof.
  split; [split; [reflexivity | discriminate]|].
  destruct (@failed_call_changes_nothing LP64 sample_finalizing sample_full)
    as [Hpush _].
  apply (Hpush 9 90 (-1) _ eq_refl). discriminate.
Defined.

(** * Further properties of the operations *)

(** ** The body of a call that holds the mutex *)

Section Locked.
Context `{P : Platform}.

Lemma push_unfold o q code data timeout :
  lock_rc o = 0 ->
  mtmq_push o (Some q) code data timeout =
  match wait_loop (deadline o timeout) push_blocked (wakes o) 0
          (set_num_wr (int_add (num_wr q) 1) q) with
  | Returns (rc, qe, ws) =>
      match push_resolve rc (set_num_wr (int_sub (num_wr qe) 1) qe)
              code data with
      | Returns (rt, q', sigs) =>
          Returns {| ret := rt; after := Some q'; unused := ws; sent := sigs |}
      | NoReturn => NoReturn
      | Undefined => Undefined
      end
  | NoReturn => NoReturn
  | Undefined => Undefined
  end.
Proof.
  intros Hl. unfold mtmq_push, deadline. rewrite Hl. simpl negb. cbv iota.
  destruct (timeout <? 0); reflexivity.
Qed.

Lemma pop_unfold o q timeout :
  lock_rc o = 0 ->
  mtmq_pop o (Some q) timeout =
  match wait_loop (deadline o timeout) pop_blocked (wakes o) 0
          (set_num_rd (int_add (num_rd q) 1) q) with
  | Returns (rc, qe, ws) =>
      match pop_resolve rc (set_num_rd (int_sub (num_rd qe) 1) qe) with
      | Returns (rt, out, q', sigs) =>
          Returns {| ret := (rt, out); after := Some q';
                     unused := ws; sent := sigs |}
      | NoReturn => NoReturn
      | Undefined => Undefined
      end
  | NoReturn => NoReturn
  | Undefined => Undefined
  end.
Proof.
  intros Hl. unfold mtmq_pop, deadline. rewrite Hl. simpl negb. cbv iota.
  destruct (timeout <? 0); reflexivity.
Qed.

(** Wake-ups for nothing are absorbed: the loop tests its condition again
    and waits again. *)
Lemma wait_loop_spurious abstime blocked pre ws q :
  blocked q = true -> Forall spurious pre ->
  wait_loop abstime blocked (pre ++ ws) 0 q = wait_loop abstime blocked ws 0 q.
Proof.
  intros Hb Hpre. induction Hpre as [|w pre [Hrc Henv] _ IH]; simpl.
  - reflexivity.
  - rewrite Hb. simpl. rewrite Hrc, Henv. exact IH.
Qed.

(** A wait that fails ends the loop. *)
Lemma wait_loop_fails abstime blocked w ws q :
  blocked q = true -> wk_rc w <> 0 ->
  wait_loop abstime blocked (w :: ws) 0 q = Returns (wk_rc w, wk_env w q, ws).
Proof.
  intros Hb Hrc. simpl. rewrite Hb. simpl.
  destruct ws; simpl;
    (destruct (Z.eqb_spec (wk_rc w) 0) as [|_]; [contradiction|]);
    rewrite andb_false_r; reflexivity.
Qed.

(** A wake-up to a queue that no longer blocks the call ends the loop,
    whatever the wait returned. *)
Lemma wait_loop_released abstime blocked w ws q :
  blocked q = true -> blocked (wk_env w q) = false ->
  wait_loop abstime blocked (w :: ws) 0 q = Returns (wk_rc w, wk_env w q, ws).
Proof.
  intros Hb Hfree. simpl. rewrite Hb. simpl.
  destruct ws; simpl; rewrite Hfree; reflexivity.
Qed.

Lemma wait_loop_none_left abstime blocked q :
  blocked q = true ->
  wait_loop abstime blocked [] 0 q =
  match abstime with
  | None => NoReturn
  | Some _ => if ETIMEDOUT =? 0 then NoReturn else Returns (ETIMEDOUT, q, [])
  end.
Proof. intros Hb. simpl. rewrite Hb. reflexivity. Qed.

Lemma push_blocked_full q :
  fin q = 0 -> num q = size q -> push_blocked q = true.
Proof.
  intros Hf Hn. unfold push_blocked. rewrite Hf, Hn. simpl. apply Z.eqb_refl.
Qed.

Lemma pop_blocked_empty q :
  fin q = 0 -> num q = 0 -> pop_blocked q = true.
Proof. intros Hf Hn. unfold pop_blocked. rewrite Hf, Hn. reflexivity. Qed.

Lemma push_resolve_full rc q code data :
  fin q = 0 -> size q <= num q ->
  push_resolve rc q code data = Returns (wait_failure rc, q, []).
Proof.
  intros Hf Hn. unfold push_resolve, wait_failure. rewrite Hf. simpl.
  destruct (Z.ltb_spec (num q) (size q)); [lia|].
  destruct (rc =? ETIMEDOUT); [|destruct (rc =? EINTR)]; reflexivity.
Qed.

Lemma pop_resolve_empty rc q :
  fin q = 0 -> num q = 0 ->
  pop_resolve rc q = Returns (wait_failure rc, None, q, []).
Proof.
  intros Hf Hn. unfold pop_resolve, wait_failure. rewrite Hf, Hn. simpl.
  destruct (rc =? ETIMEDOUT); [|destruct (rc =? EINTR)]; reflexivity.
Qed.

Lemma push_resolve_free c rc q code data :
  well_formed c q -> c <= INT_MAX -> fin q = 0 -> num q < size q ->
  exists q',
    push_resolve rc q code data =
    Returns (MTMQ_RC_OK, q',
             if negb (num_rd q =? 0) then [SignalRd] else []) /\
    well_formed c q' /\ fin q' = 0 /\ num q' = num q + 1 /\
    num_rd q' = num_rd q /\ num_wr q' = num_wr q /\
    contents q' = contents q ++ [{| code := code; data := data |}].
Proof.
  intros Hq Hmax Hf Hlt. unfold push_resolve. rewrite Hf. simpl.
  destruct (Z.ltb_spec (num q) (size q)); [|lia].
  destruct Hq as [Hring Harr].
  assert (Hr := Hring). destruct Hr as (Hs & Hn & Hfi & Hl & _).
  rewrite store_in_range by (unfold arr_ok in Harr; lia).
  eexists. split; [reflexivity|].
  change (set_num _ _) with
    (enqueued q (<[Z.to_nat (last q) := {| code := code; data := data |}]> (arr q))).
  split; [split|].
  - apply enqueued_ring; [assumption | assumption | lia].
  - apply enqueued_arr_ok; assumption.
  - split; [exact Hf|]. split.
    + simpl. apply int_add_fits. unfold INT_MIN, INT_MAX in *. lia.
    + split; [reflexivity|]. split; [reflexivity|].
      apply (enqueued_contents c); [assumption.. | lia].
Qed.

Lemma pop_resolve_some c rc q :
  well_formed c q -> c <= INT_MAX -> num q <> 0 ->
  exists e q',
    pop_resolve rc q =
    Returns (MTMQ_RC_OK, Some e, q',
             if negb (num_wr q =? 0) then [SignalWr] else []) /\
    well_formed c q' /\ fin q' = fin q /\ num q' = num q - 1 /\
    num_rd q' = num_rd q /\ num_wr q' = num_wr q /\
    contents q = e :: contents q'.
Proof.
  intros Hq Hmax Hne. unfold pop_resolve.
  destruct (Z.eqb_spec (num q) 0) as [|_]; [contradiction|]. simpl.
  destruct (dequeued_contents c q (proj1 Hq) Hmax (proj2 Hq) Hne)
    as (e & He & Hc).
  rewrite He. exists e. eexists. split; [reflexivity|].
  change (set_num _ _) with (dequeued q).
  destruct (dequeued_well_formed c Hmax q e Hq Hne He) as [Hq' _].
  split; [exact Hq'|]. split; [reflexivity|]. split.
  - simpl. apply int_sub_fits.
    destruct Hq as [(_ & Hn & _) _]. unfold INT_MIN, INT_MAX in *. lia.
  - split; [reflexivity|]. split; [reflexivity | exact Hc].
Qed.
End Locked.

(** ** Calls that find room, or an element *)

(** A push on a queue that is not finalized and has a free slot stores its
    element at once: it does not wait, returns [MTMQ_RC_OK], signals a
    reader exactly when one is counted as waiting, and the element is the
    newest of the buffered ones. *)
Theorem push_free_slot `{P : Platform} (c : Z) (o : oracle) (q : mtmq)
    (code : Z) (data : ptr) (timeout : Z) :
  c <= INT_MAX -> well_formed c q -> fin q = 0 -> num q < size q ->
  lock_rc o = 0 ->
  exists q',
    mtmq_push o (Some q) code data timeout =
    Returns {| ret := MTMQ_RC_OK; after := Some q'; unused := wakes o;
               sent := if negb (num_rd q =? 0) then [SignalRd] else [] |} /\
    well_formed c q' /\ fin q' = 0 /\ num q' = num q + 1 /\
    contents q' = contents q ++ [{| code := code; data := data |}].
Proof.
  intros Hmax Hq Hf Hlt Hl. rewrite (push_unfold o q code data timeout Hl).
  rewrite wait_loop_skip.
  2:{ unfold push_blocked. simpl.
      destruct (Z.eqb_spec (num q) (size q)); [lia | apply andb_false_r]. }
  set (qw := set_num_wr _ (set_num_wr _ q)).
  assert (Hqw : well_formed c qw) by exact Hq.
  destruct (push_resolve_free c 0 qw code data Hqw Hmax Hf Hlt)
    as (q' & -> & Hq' & Hf' & Hn' & _ & _ & Hc).
  exists q'. auto.
Qed.

(** A push on the sample queue, which holds one element of two. *)
Lemma push_free_slot_witness :
  (2 <= INT_MAX /\ well_formed 2 sample_queue /\ fin sample_queue = 0 /\
   num sample_queue < size sample_queue /\ lock_rc sample_oracle = 0) /\
  exists q',
    @mtmq_push LP64 sample_oracle (Some sample_queue) 8 80 (-1) =
    Returns {| ret := MTMQ_RC_OK; after := Some q';
               unused := wakes sample_oracle;
               sent := if negb (num_rd sample_queue =? 0)
                       then [SignalRd] else [] |} /\
    well_formed 2 q' /\ fin q' = 0 /\ num q' = num sample_queue + 1 /\
    contents q' = contents sample_queue ++ [{| code := 8; data := 80 |}].
Proof.
  assert (Hmax : 2 <= INT_MAX) by (unfold INT_MAX; lia).
  assert (Hwf : well_formed 2 sample_queue).
  { unfold well_formed, ring_inv, arr_ok; simpl. repeat split; lia. }
  assert (Hlt : num sample_queue < size sample_queue) by (simpl; lia).
  split; [auto 6|].
  exact (@push_free_slot LP64 2 sample_oracle sample_queue 8 80 (-1)
           Hmax Hwf eq_refl Hlt eq_refl).
Defined.

(** A pop on a queue that holds an element takes the oldest one at once,
    finalized or not: it does not wait, returns [MTMQ_RC_OK], and signals a
    writer exactly when one is counted as waiting. *)
Theorem pop_available `{P : Platform} (c : Z) (o : oracle) (q : mtmq)
    (timeout : Z) :
  c <= INT_MAX -> well_formed c q -> num q <> 0 -> lock_rc o = 0 ->
  exists e q',
    mtmq_pop o (Some q) timeout =
    Returns {| ret := (MTMQ_RC_OK, Some e); after := Some q';
               unused := wakes o;
               sent := if negb (num_wr q =? 0) then [SignalWr] else [] |} /\
    well_formed c q' /\ fin q' = fin q /\ num q' = num q - 1 /\
    contents q = e :: contents q'.
Proof.
  intros Hmax Hq Hne Hl. rewrite (pop_unfold o q timeout Hl).
  rewrite wait_loop_skip by (apply pop_blocked_some; exact Hne).
  set (qw := set_num_rd _ (set_num_rd _ q)).
  assert (Hqw : well_formed c qw) by exact Hq.
  destruct (pop_resolve_some c 0 qw Hqw Hmax Hne)
    as (e & q' & -> & Hq' & Hf' & Hn' & _ & _ & Hc).
  exists e, q'. auto.
Qed.

(** A pop on the sample queue, which holds [(7, 70)]. *)
Lemma pop_available_witness :
  (2 <= INT_MAX /\ well_formed 2 sample_queue /\ num sample_queue <> 0 /\
   lock_rc sample_oracle = 0) /\
  exists e q',
    @mtmq_pop LP64 sample_oracle (Some sample_queue) 250 =
    Returns {| ret := (MTMQ_RC_OK, Some e); after := Some q';
               unused := wakes sample_oracle;
               sent := if negb (num_wr sample_queue =? 0)
                       then [SignalWr] else [] |} /\
    well_formed 2 q' /\ fin q' = fin sample_queue /\
    num q' = num sample_queue - 1 /\
    contents sample_queue = e :: contents q'.
Proof.
  assert (Hmax : 2 <= INT_MAX) by (unfold INT_MAX; lia).
  assert (Hwf : well_formed 2 sample_queue).
  { unfold well_formed, ring_inv, arr_ok; simpl. repeat split; lia. }
  assert (Hne : num sample_queue <> 0) by discriminate.
  split; [auto|].
  exact (@pop_available LP64 2 sample_oracle sample_queue 250
           Hmax Hwf Hne eq_refl).
Defined.

(** ** Calls that wait *)

(** A push that waits on a full queue, alone: wake-ups for nothing make it
    wait again, and the first wait that fails ends the call with the outcome
    of the failure ([MTMQ_RC_TIMEDOUT] for [ETIMEDOUT],
    [MTMQ_RC_INTERRUPTED] for [EINTR], [MTMQ_RC_ERROR] otherwise), the queue
    untouched and the later wake-ups unused. *)
Theorem push_wait_fails `{P : Platform} (o : oracle) (q : mtmq)
    (code : Z) (data : ptr) (timeout : Z) (pre : list wake) (w : wake)
    (rest : list wake) :
  lock_rc o = 0 -> fin q = 0 -> num q = size q ->
  wakes o = pre ++ w :: rest -> Forall spurious pre ->
  wk_rc w <> 0 -> (forall q, wk_env w q = q) ->
  exists q',
    mtmq_push o (Some q) code data timeout =
    Returns {| ret := wait_failure (wk_rc w); after := Some q';
               unused := rest; sent := [] |} /\
    observable q' = observable q.
Proof.
  intros Hl Hf Hn Hws Hpre Hrc Henv.
  rewrite (push_unfold o q code data timeout Hl), Hws.
  set (q1 := set_num_wr _ q).
  assert (Hb : push_blocked q1 = true) by (apply push_blocked_full; assumption).
  rewrite (wait_loop_spurious _ _ pre _ q1 Hb Hpre).
  rewrite (wait_loop_fails _ _ w rest q1 Hb Hrc), Henv.
  rewrite push_resolve_full by (simpl; lia || assumption).
  eexists. split; reflexivity.
Qed.

(** An interrupted push on the full sample queue. *)
Lemma push_wait_fails_witness :
  (lock_rc sample_interrupted = 0 /\ fin sample_full = 0 /\
   num sample_full = size sample_full /\
   wakes sample_interrupted = [still 0] ++ still 4 :: [] /\
   Forall spurious [still 0] /\ wk_rc (still 4) <> 0) /\
  exists q',
    @mtmq_push LP64 sample_interrupted (Some sample_full) 9 90 250 =
    Returns {| ret := @wait_failure LP64 (wk_rc (still 4)); after := Some q';
               unused := []; sent := [] |} /\
    observable q' = observable sample_full.
Proof.
  assert (Hpre : Forall spurious [still 0]).
  { constructor; [split; [reflexivity | intros q0; reflexivity] | constructor]. }
  assert (Hrc : wk_rc (still 4) <> 0) by discriminate.
  split; [repeat split; solve [reflexivity | exact Hpre | exact Hrc]|].
  exact (@push_wait_fails LP64 sample_interrupted sample_full 9 90 250
           [still 0] (still 4) [] eq_refl eq_refl eq_refl eq_refl Hpre Hrc
           (fun q0 => eq_refl)).
Defined.

(** A pop that waits on an empty queue that is not finalized, alone: the
    first wait that fails ends the call with the outcome of the failure;
    nothing is delivered and the queue is untouched. *)
Theorem pop_wait_fails `{P : Platform} (o : oracle) (q : mtmq)
    (timeout : Z) (pre : list wake) (w : wake) (rest : list wake) :
  lock_rc o = 0 -> fin q = 0 -> num q = 0 ->
  wakes o = pre ++ w :: rest -> Forall spurious pre ->
  wk_rc w <> 0 -> (forall q, wk_env w q = q) ->
  exists q',
    mtmq_pop o (Some q) timeout =
    Returns {| ret := (wait_failure (wk_rc w), None); after := Some q';
               unused := rest; sent := [] |} /\
    observable q' = observable q.
Proof.
  intros Hl Hf Hn Hws Hpre Hrc Henv.
  rewrite (pop_unfold o q timeout Hl), Hws.
  set (q1 := set_num_rd _ q).
  assert (Hb : pop_blocked q1 = true) by (apply pop_blocked_empty; assumption).
  rewrite (wait_loop_spurious _ _ pre _ q1 Hb Hpre).
  rewrite (wait_loop_fails _ _ w rest q1 Hb Hrc), Henv.
  rewrite pop_resolve_empty by assumption.
  eexists. split; reflexivity.
Qed.

(** An interrupted pop on the empty sample queue. *)
Lemma pop_wait_fails_witness :
  (lock_rc sample_interrupted = 0 /\ fin sample_created = 0 /\
   num sample_created = 0 /\
   wakes sample_interrupted = [still 0] ++ still 4 :: [] /\
   Forall spurious [still 0] /\ wk_rc (still 4) <> 0) /\
  exists q',
    @mtmq_pop LP64 sample_interrupted (Some sample_created) (-1) =
    Returns {| ret := (@wait_failure LP64 (wk_rc (still 4)), None);
               after := Some q'; unused := []; sent := [] |} /\
    observable q' = observable sample_created.
Proof.
  assert (Hpre : Forall spurious [still 0]).
  { constructor; [split; [reflexivity | intros q0; reflexivity] | constructor]. }
  assert (Hrc : wk_rc (still 4) <> 0) by discriminate.
  split; [repeat split; solve [reflexivity | exact Hpre | exact Hrc]|].
  exact (@pop_wait_fails LP64 sample_interrupted sample_created (-1)
           [still 0] (still 4) [] eq_refl eq_refl eq_refl eq_refl Hpre Hrc
           (fun q0 => eq_refl)).
Defined.

(** A push on a full queue that nothing but wake-ups for nothing reaches:
    without a timeout it never returns; with one it returns
    [MTMQ_RC_TIMEDOUT] at its deadline, the queue untouched. *)
Theorem push_never_woken `{P : Platform} (o : oracle) (q : mtmq)
    (code : Z) (data : ptr) (timeout : Z) :
  lock_rc o = 0 -> fin q = 0 -> num q = size q ->
  Forall spurious (wakes o) ->
  (timeout < 0 -> mtmq_push o (Some q) code data timeout = NoReturn) /\
  (0 <= timeout -> ETIMEDOUT <> 0 ->
   exists q',
     mtmq_push o (Some q) code data timeout =
     Returns {| ret := MTMQ_RC_TIMEDOUT; after := Some q';
                unused := []; sent := [] |} /\
     observable q' = observable q).
Proof.
  intros Hl Hf Hn Hsp.
  rewrite (push_unfold o q code data timeout Hl).
  set (q1 := set_num_wr _ q).
  assert (Hb : push_blocked q1 = true) by (apply push_blocked_full; assumption).
  rewrite <- (app_nil_r (wakes o)).
  rewrite (wait_loop_spurious _ _ (wakes o) [] q1 Hb Hsp).
  rewrite (wait_loop_none_left _ _ q1 Hb). unfold deadline. split.
  - intros Ht. destruct (Z.ltb_spec timeout 0); [reflexivity | lia].
  - intros Ht Hne. destruct (Z.ltb_spec timeout 0); [lia|].
    destruct (Z.eqb_spec ETIMEDOUT 0); [contradiction|].
    rewrite push_resolve_full by (simpl; lia || assumption).
    unfold wait_failure. rewrite Z.eqb_refl.
    eexists. split; reflexivity.
Qed.

(** A push on the full sample queue, never woken. *)
Lemma push_never_woken_witness :
  (lock_rc sample_oracle = 0 /\ fin sample_full = 0 /\
   num sample_full = size sample_full /\
   Forall spurious (wakes sample_oracle)) /\
  @mtmq_push LP64 sample_oracle (Some sample_full) 9 90 (-1) = NoReturn.
Proof.
  assert (Hsp : Forall spurious (wakes sample_oracle)) by constructor.
  split; [auto|].
  destruct (@push_never_woken LP64 sample_oracle sample_full 9 90 (-1)
              eq_refl eq_refl eq_refl Hsp) as [Hblock _].
  apply Hblock. lia.
Defined.

(** A pop on an empty queue that is not finalized and that nothing but
    wake-ups for nothing reaches: without a timeout it never returns; with
    one it returns [MTMQ_RC_TIMEDOUT] at its deadline and delivers
    nothing. *)
Theorem pop_never_woken `{P : Platform} (o : oracle) (q : mtmq)
    (timeout : Z) :
  lock_rc o = 0 -> fin q = 0 -> num q = 0 ->
  Forall spurious (wakes o) ->
  (timeout < 0 -> mtmq_pop o (Some q) timeout = NoReturn) /\
  (0 <= timeout -> ETIMEDOUT <> 0 ->
   exists q',
     mtmq_pop o (Some q) timeout =
     Returns {| ret := (MTMQ_RC_TIMEDOUT, None); after := Some q';
                unused := []; sent := [] |} /\
     observable q' = observable q).
Proof.
  intros Hl Hf Hn Hsp.
  rewrite (pop_unfold o q timeout Hl).
  set (q1 := set_num_rd _ q).
  assert (Hb : pop_blocked q1 = true) by (apply pop_blocked_empty; assumption).
  rewrite <- (app_nil_r (wakes o)).
  rewrite (wait_loop_spurious _ _ (wakes o) [] q1 Hb Hsp).
  rewrite (wait_loop_none_left _ _ q1 Hb). unfold deadline. split.
  - intros Ht. destruct (Z.ltb_spec timeout 0); [reflexivity | lia].
  - intros Ht Hne. destruct (Z.ltb_spec timeout 0); [lia|].
    destruct (Z.eqb_spec ETIMEDOUT 0); [contradiction|].
    rewrite pop_resolve_empty by assumption.
    unfold wait_failure. rewrite Z.eqb_refl.
    eexists. split; reflexivity.
Qed.

(** A pop with a timeout on the empty sample queue, never woken. *)
Lemma pop_never_woken_witness :
  (lock_rc sample_oracle = 0 /\ fin sample_created = 0 /\
   num sample_created = 0 /\ Forall spurious (wakes sample_oracle) /\
   0 <= 250 /\ @ETIMEDOUT LP64 <> 0) /\
  exists q',
    @mtmq_pop LP64 sample_oracle (Some sample_created) 250 =
    Returns {| ret := (MTMQ_RC_TIMEDOUT, None); after := Some q';
               unused := []; sent := [] |} /\
    observable q' = observable sample_created.
Proof.
  assert (Hsp : Forall spurious (wakes sample_oracle)) by constructor.
  assert (Ht : 0 <= 250) by lia.
  assert (Hne : @ETIMEDOUT LP64 <> 0) by discriminate.
  split; [auto 7|].
  destruct (@pop_never_woken LP64 sample_oracle sample_created 250
              eq_refl eq_refl eq_refl Hsp) as [_ Htimed].
  exact (Htimed Ht Hne).
Defined.

(** A push that waits on a full queue and wakes up to a queue that no
    longer blocks it ignores what its wait returned: on a finalized queue it
    returns [MTMQ_RC_FINALIZED], and on a queue with a free slot it stores
    its element and returns [MTMQ_RC_OK], also when the wait returned
    [ETIMEDOUT] or [EINTR]. *)
Theorem push_released `{P : Platform} (c : Z) (o : oracle) (q : mtmq)
    (code : Z) (data : ptr) (timeout : Z) (pre : list wake) (w : wake)
    (rest : list wake) :
  c <= INT_MAX -> lock_rc o = 0 -> fin q = 0 -> num q = size q ->
  wakes o = pre ++ w :: rest -> Forall spurious pre ->
  well_formed c (wk_env w (set_num_wr (int_add (num_wr q) 1) q)) ->
  fin (wk_env w (set_num_wr (int_add (num_wr q) 1) q)) <> 0 \/
  num (wk_env w (set_num_wr (int_add (num_wr q) 1) q))
  < size (wk_env w (set_num_wr (int_add (num_wr q) 1) q)) ->
  exists q' sigs,
    mtmq_push o (Some q) code data timeout =
    Returns {| ret := if fin (wk_env w (set_num_wr (int_add (num_wr q) 1) q))
                         =? 0
                      then MTMQ_RC_OK else MTMQ_RC_FINALIZED;
               after := Some q'; unused := rest; sent := sigs |} /\
    well_formed c q' /\
    contents q' =
    if fin (wk_env w (set_num_wr (int_add (num_wr q) 1) q)) =? 0
    then contents (wk_env w (set_num_wr (int_add (num_wr q) 1) q))
         ++ [{| code := code; data := data |}]
    else contents (wk_env w (set_num_wr (int_add (num_wr q) 1) q)).
Proof.
  intros Hmax Hl Hf Hn Hws Hpre.
  set (q0 := set_num_wr (int_add (num_wr q) 1) q).
  set (q1 := wk_env w q0). intros Hq1 Hfree.
  rewrite (push_unfold o q code data timeout Hl), Hws. fold q0.
  assert (Hb : push_blocked q0 = true) by (apply push_blocked_full; assumption).
  rewrite (wait_loop_spurious _ _ pre _ q0 Hb Hpre).
  rewrite (wait_loop_released _ _ w rest q0 Hb).
  2:{ fold q1. unfold push_blocked.
      destruct (Z.eqb_spec (fin q1) 0); [|reflexivity].
      destruct (Z.eqb_spec (num q1) (size q1)); [lia | reflexivity]. }
  fold q1. set (qw := set_num_wr (int_sub (num_wr q1) 1) q1).
  assert (Hqw : well_formed c qw) by exact Hq1.
  destruct (Z.eqb_spec (fin q1) 0) as [Hf1|Hf1].
  - assert (Hlt : num qw < size qw) by (destruct Hfree; [contradiction | assumption]).
    destruct (push_resolve_free c (wk_rc w) qw code data Hqw Hmax Hf1 Hlt)
      as (q' & -> & Hq' & _ & _ & _ & _ & Hc).
    exists q'. eexists. split; [reflexivity|]. split; [exact Hq' | exact Hc].
  - unfold push_resolve.
    change (fin qw) with (fin q1).
    destruct (Z.eqb_spec (fin q1) 0); [contradiction|]. simpl.
    exists qw, []. split; [reflexivity|]. split; [exact Hqw | reflexivity].
Qed.

(** A push on the full sample queue whose wait times out just as another
    thread takes an element: the push stores its element. *)
Lemma push_released_witness :
  (2 <= INT_MAX /\ lock_rc sample_freeing = 0 /\ fin sample_full = 0 /\
   num sample_full = size sample_full /\
   wakes sample_freeing
   = [] ++ {| wk_rc := 110; wk_env := dequeued |} :: [] /\
   wk_rc {| wk_rc := 110; wk_env := dequeued |} = @ETIMEDOUT LP64) /\
  exists q' sigs,
    @mtmq_push LP64 sample_freeing (Some sample_full) 9 90 250 =
    Returns {| ret := MTMQ_RC_OK; after := Some q';
               unused := []; sent := sigs |} /\
    well_formed 2 q' /\
    contents q' = [{| code := 8; data := 80 |}; {| code := 9; data := 90 |}].
Proof.
  assert (Hmax : 2 <= INT_MAX) by (unfold INT_MAX; lia).
  split; [repeat split; solve [reflexivity | exact Hmax]|].
  assert (Hwf : well_formed 2
            (dequeued (set_num_wr (int_add (num_wr sample_full) 1) sample_full))).
  { unfold well_formed, ring_inv, arr_ok; vm_compute.
    repeat split; discriminate. }
  assert (Hfree : fin (dequeued (set_num_wr (int_add (num_wr sample_full) 1)
                                   sample_full)) <> 0 \/
                  num (dequeued (set_num_wr (int_add (num_wr sample_full) 1)
                                   sample_full))
                  < size (dequeued (set_num_wr (int_add (num_wr sample_full) 1)
                                      sample_full))).
  { right. vm_compute. reflexivity. }
  exact (@push_released LP64 2 sample_freeing sample_full 9 90 250
           [] {| wk_rc := 110; wk_env := dequeued |} []
           Hmax eq_refl eq_refl eq_refl eq_refl ltac:(constructor) Hwf Hfree).
Defined.

(** A pop that waits on an empty queue and wakes up to a queue that no
    longer blocks it ignores what its wait returned: if the queue holds an
    element the pop takes the oldest one and returns [MTMQ_RC_OK], also when
    the wait returned [ETIMEDOUT] and also when the queue is finalized;
    only on an empty finalized queue does it return [MTMQ_RC_FINALIZED]. *)
Theorem pop_released `{P : Platform} (c : Z) (o : oracle) (q : mtmq)
    (timeout : Z) (pre : list wake) (w : wake) (rest : list wake) :
  c <= INT_MAX -> lock_rc o = 0 -> fin q = 0 -> num q = 0 ->
  wakes o = pre ++ w :: rest -> Forall spurious pre ->
  well_formed c (wk_env w (set_num_rd (int_add (num_rd q) 1) q)) ->
  num (wk_env w (set_num_rd (int_add (num_rd q) 1) q)) <> 0 \/
  fin (wk_env w (set_num_rd (int_add (num_rd q) 1) q)) <> 0 ->
  exists out q' sigs,
    mtmq_pop o (Some q) timeout =
    Returns {| ret := (if num (wk_env w (set_num_rd (int_add (num_rd q) 1) q))
                          =? 0
                       then MTMQ_RC_FINALIZED else MTMQ_RC_OK, out);
               after := Some q'; unused := rest; sent := sigs |} /\
    well_formed c q' /\
    contents (wk_env w (set_num_rd (int_add (num_rd q) 1) q))
    = match out with
      | Some e => e :: contents q'
      | None => contents q'
      end /\
    (out = None <-> num (wk_env w (set_num_rd (int_add (num_rd q) 1) q)) = 0).
Proof.
  intros Hmax Hl Hf Hn Hws Hpre.
  set (q0 := set_num_rd (int_add (num_rd q) 1) q).
  set (q1 := wk_env w q0). intros Hq1 Hfree.
  rewrite (pop_unfold o q timeout Hl), Hws. fold q0.
  assert (Hb : pop_blocked q0 = true) by (apply pop_blocked_empty; assumption).
  rewrite (wait_loop_spurious _ _ pre _ q0 Hb Hpre).
  rewrite (wait_loop_released _ _ w rest q0 Hb).
  2:{ fold q1. unfold pop_blocked.
      destruct (Z.eqb_spec (num q1) 0); [|reflexivity].
      destruct (Z.eqb_spec (fin q1) 0); [|reflexivity].
      destruct Hfree; contradiction. }
  fold q1. set (qw := set_num_rd (int_sub (num_rd q1) 1) q1).
  assert (Hqw : well_formed c qw) by exact Hq1.
  destruct (Z.eqb_spec (num q1) 0) as [Hn1|Hn1].
  - assert (Hf1 : fin q1 <> 0) by (destruct Hfree; [contradiction | assumption]).
    unfold pop_resolve.
    change (num qw) with (num q1). change (fin qw) with (fin q1).
    rewrite Hn1. simpl.
    destruct (Z.eqb_spec (fin q1) 0); [contradiction|]. simpl.
    exists None, qw, []. split; [reflexivity|]. split; [exact Hqw|].
    split; [reflexivity|]. split; auto.
  - destruct (pop_resolve_some c (wk_rc w) qw Hqw Hmax Hn1)
      as (e & q' & -> & Hq' & _ & _ & _ & _ & Hc).
    exists (Some e), q'. eexists. split; [reflexivity|].
    split; [exact Hq'|]. split; [exact Hc|].
    split; [discriminate | contradiction].
Qed.

(** A pop on the empty sample queue whose wait times out just as another
    thread stores [(7, 70)]: the pop delivers it. *)
Lemma pop_released_witness :
  (2 <= INT_MAX /\ lock_rc sample_filling = 0 /\ fin sample_created = 0 /\
   num sample_created = 0 /\
   wakes sample_filling = [] ++ wakes sample_filling) /\
  exists out q' sigs,
    @mtmq_pop LP64 sample_filling (Some sample_created) 250 =
    Returns {| ret := (MTMQ_RC_OK, out); after := Some q';
               unused := []; sent := sigs |} /\
    well_formed 2 q' /\
    [{| code := 7; data := 70 |}]
    = match out with
      | Some e => e :: contents q'
      | None => contents q'
      end /\
    (out = None <->
     num (enqueued (set_num_rd (int_add (num_rd sample_created) 1)
                      sample_created)
            (<[Z.to_nat (last sample_created) := {| code := 7; data := 70 |}]>
               (arr sample_created))) = 0).
Proof.
  assert (Hmax : 2 <= INT_MAX) by (unfold INT_MAX; lia).
  split; [repeat split; solve [reflexivity | exact Hmax]|].
  refine (@pop_released LP64 2 sample_filling sample_created 250
            [] {| wk_rc := 110;
                  wk_env := fun q =>
                    enqueued q (<[Z.to_nat (last q) :=
                                    {| code := 7; data := 70 |}]> (arr q)) |}
            [] Hmax eq_refl eq_refl eq_refl eq_refl ltac:(constructor) _ _).
  - unfold well_formed, ring_inv, arr_ok; vm_compute.
    repeat split; discriminate.
  - left. vm_compute. discriminate.
Defined.

(** ** Signals and waiting counters *)

Section Signals.
Context `{P : Platform}.

Lemma push_resolve_sent rc q code data rt q' sigs :
  push_resolve rc q code data = Returns (rt, q', sigs) ->
  (rt <> MTMQ_RC_OK /\ sigs = []) \/
  (rt = MTMQ_RC_OK /\
   sigs = if negb (num_rd q =? 0) then [SignalRd] else []).
Proof.
  unfold push_resolve.
  destruct (negb (fin q =? 0)); [intros [= <- _ <-]; left; split; [discriminate | reflexivity]|].
  destruct (num q <? size q).
  - destruct (store (arr q) (last q) _); [|discriminate].
    intros [= <- _ <-]. right. split; reflexivity.
  - destruct (rc =? ETIMEDOUT); [|destruct (rc =? EINTR)];
      intros [= <- _ <-]; left; (split; [discriminate | reflexivity]).
Qed.

Lemma pop_resolve_sent rc q rt out q' sigs :
  pop_resolve rc q = Returns (rt, out, q', sigs) ->
  (rt <> MTMQ_RC_OK /\ sigs = []) \/
  (rt = MTMQ_RC_OK /\
   sigs = if negb (num_wr q =? 0) then [SignalWr] else []).
Proof.
  unfold pop_resolve.
  destruct (negb (num q =? 0)).
  - destruct (load (arr q) (first q)); [|discriminate].
    intros [= <- _ _ <-]. right. split; reflexivity.
  - destruct (negb (fin q =? 0));
      [intros [= <- _ _ <-]; left; split; [discriminate | reflexivity]|].
    destruct (rc =? ETIMEDOUT); [|destruct (rc =? EINTR)];
      intros [= <- _ _ <-]; left; (split; [discriminate | reflexivity]).
Qed.
End Signals.

(** Only a call that changes the queue signals: a push sends nothing unless
    it returns [MTMQ_RC_OK], and then at most one signal, to the readers; a
    pop sends nothing unless it returns [MTMQ_RC_OK], and then at most one
    signal, to the writers.  Neither ever broadcasts. *)
Theorem signals_only_on_success `{P : Platform} (o : oracle)
    (h : option mtmq) :
  (forall code data timeout r,
     mtmq_push o h code data timeout = Returns r ->
     sent r = [] \/ (ret r = MTMQ_RC_OK /\ sent r = [SignalRd])) /\
  (forall timeout r,
     mtmq_pop o h timeout = Returns r ->
     sent r = [] \/ (fst (ret r) = MTMQ_RC_OK /\ sent r = [SignalWr])).
Proof.
  split.
  - intros code data timeout r Hr. destruct h as [q|].
    2:{ injection Hr as <-. left. reflexivity. }
    destruct (Z.eq_dec (lock_rc o) 0) as [Hl|Hl].
    + rewrite (push_unfold o q code data timeout Hl) in Hr.
      destruct (wait_loop _ _ _ _ _) as [[[rc qe] ws]| |]; try discriminate.
      destruct (push_resolve rc _ code data) as [[[rt q'] sigs]| |] eqn:Hres;
        try discriminate.
      injection Hr as <-. simpl.
      apply push_resolve_sent in Hres as [[_ ->] | [-> ->]]; [auto|].
      destruct (negb (_ =? 0)); auto.
    + apply push_returns in Hr as [[_ ->] | [Hl' _]]; [|contradiction].
      left. reflexivity.
  - intros timeout r Hr. destruct h as [q|].
    2:{ injection Hr as <-. left. reflexivity. }
    destruct (Z.eq_dec (lock_rc o) 0) as [Hl|Hl].
    + rewrite (pop_unfold o q timeout Hl) in Hr.
      destruct (wait_loop _ _ _ _ _) as [[[rc qe] ws]| |]; try discriminate.
      destruct (pop_resolve rc _) as [[[[rt out] q'] sigs]| |] eqn:Hres;
        try discriminate.
      injection Hr as <-. simpl.
      apply pop_resolve_sent in Hres as [[_ ->] | [-> ->]]; [auto|].
      destruct (negb (_ =? 0)); auto.
    + apply pop_returns in Hr as [[_ ->] | [Hl' _]]; [|contradiction].
      left. reflexivity.
Qed.

(** The interrupted push on the full sample queue sends nothing. *)
Lemma signals_only_on_success_witness :
  @mtmq_push LP64 sample_interrupted (Some sample_full) 9 90 (-1) =
  Returns {| ret := MTMQ_RC_INTERRUPTED; after := Some sample_full;
             unused := []; sent := [] |} /\
  ([] = @nil signal \/
   (MTMQ_RC_INTERRUPTED = MTMQ_RC_OK /\ [] = [SignalRd])).
Proof.
  split; [reflexivity|].
  destruct (@signals_only_on_success LP64 sample_interrupted
              (Some sample_full)) as [Hpush _].
  exact (Hpush 9 90 (-1) _ eq_refl).
Defined.

(** A call that takes the mutex counts itself in before it waits and out
    after.  While a push waits, the other threads work on the queue of the
    call with [num_wr] one more than the call found, and when the push
    returns [num_wr] is one less than they left it and [num_rd] is as they
    left it; so for a pop, with [num_rd] and [num_wr] exchanged.  When the
    other threads changed nothing meanwhile and the counters are [int]
    values, both are what the call found. *)
Theorem waiting_counters_restored `{P : Platform} (o : oracle) (q : mtmq) :
  lock_rc o = 0 ->
  (forall code data timeout r,
     mtmq_push o (Some q) code data timeout = Returns r ->
     exists used q',
       wakes o = used ++ unused r /\ after r = Some q' /\
       num_wr q' =
       int_sub
         (num_wr (env_run used (set_num_wr (int_add (num_wr q) 1) q))) 1 /\
       num_rd q' =
       num_rd (env_run used (set_num_wr (int_add (num_wr q) 1) q)) /\
       (Forall (fun w => forall q, wk_env w q = q) used ->
        fits 32 (num_wr q) ->
        num_rd q' = num_rd q /\ num_wr q' = num_wr q)) /\
  (forall timeout r,
     mtmq_pop o (Some q) timeout = Returns r ->
     exists used q',
       wakes o = used ++ unused r /\ after r = Some q' /\
       num_rd q' =
       int_sub
         (num_rd (env_run used (set_num_rd (int_add (num_rd q) 1) q))) 1 /\
       num_wr q' =
       num_wr (env_run used (set_num_rd (int_add (num_rd q) 1) q)) /\
       (Forall (fun w => forall q, wk_env w q = q) used ->
        fits 32 (num_rd q) ->
        num_rd q' = num_rd q /\ num_wr q' = num_wr q)).
Proof.
  intros Hl. split.
  - intros code data timeout r Hr.
    apply push_returns in Hr as [[Hl' _] | (_ & used & Hws & Hcases)];
      [contradiction|].
    cbv zeta in Hcases.
    assert (Hq' : exists q', after r = Some q' /\
              num_wr q' = num_wr (push_woken used q) /\
              num_rd q' = num_rd (push_woken used q)).
    { destruct Hcases as [(_ & -> & _) | (_ & _ & _ & a & _ & ->)];
        eexists; (split; [reflexivity|]); split; reflexivity. }
    destruct Hq' as (q' & Haft & Hwr & Hrd).
    exists used, q'. split; [exact Hws|]. split; [exact Haft|].
    split; [exact Hwr|]. split; [exact Hrd|].
    intros Hstill Hfits. rewrite Hwr, Hrd.
    rewrite (push_woken_quiet used q Hstill). simpl.
    rewrite (wrap_fits 32 (num_wr q)) by (lia || assumption). auto.
  - intros timeout r Hr.
    apply pop_returns in Hr as [[Hl' _] | (_ & used & Hws & Hcases)];
      [contradiction|].
    cbv zeta in Hcases.
    assert (Hq' : exists q', after r = Some q' /\
              num_rd q' = num_rd (pop_woken used q) /\
              num_wr q' = num_wr (pop_woken used q)).
    { destruct Hcases as [(_ & _ & -> & _) | (_ & _ & e & _ & _ & ->)];
        eexists; (split; [reflexivity|]); split; reflexivity. }
    destruct Hq' as (q' & Haft & Hrd & Hwr).
    exists used, q'. split; [exact Hws|]. split; [exact Haft|].
    split; [exact Hrd|]. split; [exact Hwr|].
    intros Hstill Hfits. rewrite Hwr, Hrd.
    rewrite (pop_woken_quiet used q Hstill). simpl.
    rewrite (wrap_fits 32 (num_rd q)) by (lia || assumption). auto.
Qed.

(** A push waits on the full sample queue, on which no thread was waiting;
    another thread starts to wait in a push of its own, which makes two
    waiting writers, and a signal interrupts the first push: it leaves one
    waiting writer behind, the other thread. *)
Lemma waiting_counters_restored_witness :
  (lock_rc sample_joined = 0 /\
   @mtmq_push LP64 sample_joined (Some sample_full) 9 90 (-1) =
   Returns {| ret := MTMQ_RC_INTERRUPTED;
              after := Some (set_num_wr 1 sample_full);
              unused := []; sent := [] |}) /\
  exists used q',
    wakes sample_joined = used ++ [] /\
    Some (set_num_wr 1 sample_full) = Some q' /\
    num_wr q' =
    int_sub
      (num_wr (env_run used
                 (set_num_wr (int_add (num_wr sample_full) 1) sample_full)))
      1 /\
    num_rd q' =
    num_rd (env_run used
              (set_num_wr (int_add (num_wr sample_full) 1) sample_full)) /\
    (Forall (fun w => forall q, wk_env w q = q) used ->
     fits 32 (num_wr sample_full) ->
     num_rd q' = num_rd sample_full /\ num_wr q' = num_wr sample_full).
Proof.
  split; [split; reflexivity|].
  destruct (@waiting_counters_restored LP64 sample_joined sample_full eq_refl)
    as [Hpush _].
  exact (Hpush 9 90 (-1) _ eq_refl).
Defined.

(** ** Accesses to the element array *)

Section Safe.
Context `{P : Platform}.
Variable c : Z.
Hypothesis Hmax : c <= INT_MAX.

Lemma push_keeps_well_formed o q code data timeout r :
  well_formed c q -> rely (well_formed c) o ->
  mtmq_push o (Some q) code data timeout = Returns r ->
  exists q', after r = Some q' /\ well_formed c q'.
Proof using Hmax.
  intros Hq Hrely Hr.
  apply push_returns in Hr as [[_ ->] | (_ & used & Hws & Hcases)].
  - exists q. auto.
  - unfold rely in Hrely. rewrite Hws in Hrely.
    apply Forall_prefix in Hrely.
    assert (Hqw : well_formed c (push_woken used q)).
    { apply push_woken_keeps; [auto | exact Hrely | exact Hq]. }
    cbv zeta in Hcases.
    destruct Hcases as [(_ & -> & _) | (_ & _ & Hlt & a & Hst & ->)].
    + eauto.
    + eexists. split; [reflexivity|].
      eapply enqueued_well_formed; eassumption.
Qed.

Lemma pop_keeps_well_formed o q timeout r :
  well_formed c q -> rely (well_formed c) o ->
  mtmq_pop o (Some q) timeout = Returns r ->
  exists q', after r = Some q' /\ well_formed c q'.
Proof using Hmax.
  intros Hq Hrely Hr.
  apply pop_returns in Hr as [[_ ->] | (_ & used & Hws & Hcases)].
  - exists q. auto.
  - unfold rely in Hrely. rewrite Hws in Hrely.
    apply Forall_prefix in Hrely.
    assert (Hqw : well_formed c (pop_woken used q)).
    { apply pop_woken_keeps; [auto | exact Hrely | exact Hq]. }
    cbv zeta in Hcases.
    destruct Hcases as [(_ & _ & -> & _) | (_ & Hne & e & Hld & _ & ->)].
    + eauto.
    + eexists. split; [reflexivity|].
      eapply dequeued_well_formed; eassumption.
Qed.
End Safe.

(** On a queue that satisfies the ring invariant and whose array has [size]
    slots, a push writes and a pop reads inside the array, whatever the
    other threads do while the call waits as long as they keep the queue in
    that shape; and the call leaves it in that shape. *)
Theorem calls_stay_in_array `{P : Platform} (c : Z) (o : oracle) (q : mtmq) :
  c <= INT_MAX -> well_formed c q -> rely (well_formed c) o ->
  (forall code data timeout,
     mtmq_push o (Some q) code data timeout <> Undefined /\
     forall r, mtmq_push o (Some q) code data timeout = Returns r ->
               exists q', after r = Some q' /\ well_formed c q') /\
  (forall timeout,
     mtmq_pop o (Some q) timeout <> Undefined /\
     forall r, mtmq_pop o (Some q) timeout = Returns r ->
               exists q', after r = Some q' /\ well_formed c q').
Proof.
  intros Hmax Hq Hrely. split.
  - intros code data timeout. split.
    + apply (push_defined c); assumption.
    + intros r Hr. exact (push_keeps_well_formed c Hmax _ _ _ _ _ _ Hq Hrely Hr).
  - intros timeout. split.
    + apply (pop_defined c); assumption.
    + intros r Hr. exact (pop_keeps_well_formed c Hmax _ _ _ _ Hq Hrely Hr).
Qed.

(** The push on the full sample queue that another thread finalizes. *)
Lemma calls_stay_in_array_witness :
  (2 <= INT_MAX /\ well_formed 2 sample_full /\
   rely (well_formed 2) sample_finalizing) /\
  @mtmq_push LP64 sample_finalizing (Some sample_full) 9 90 250 <> Undefined.
Proof.
  assert (Hmax : 2 <= INT_MAX) by (unfold INT_MAX; lia).
  assert (Hwf : well_formed 2 sample_full).
  { unfold well_formed, ring_inv, arr_ok; simpl. repeat split; lia. }
  assert (Hrely : rely (well_formed 2) sample_finalizing).
  { constructor; [intros q0 Hq0; exact Hq0 | constructor]. }
  split; [auto|].
  destruct (@calls_stay_in_array LP64 2 sample_finalizing sample_full
              Hmax Hwf Hrely) as [Hpush _].
  exact (proj1 (Hpush 9 90 250)).
Defined.

(** * The deadline on a platform with a short [long] *)

Lemma wrap_range w z : 0 < w -> fits w (wrap w z).
Proof.
  intros Hw. unfold fits, wrap.
  assert (E : 2 ^ w = 2 * 2 ^ (w - 1)).
  { replace w with (Z.succ (w - 1)) at 1 by lia. apply Z.pow_succ_r. lia. }
  assert (Hp : 0 < 2 ^ (w - 1)) by (apply Z.pow_pos_nonneg; lia).
  pose proof (Z.mod_pos_bound (z + 2 ^ (w - 1)) (2 ^ w) ltac:(lia)). lia.
Qed.

Lemma fits_between w a b z : fits w a -> fits w b -> a <= z <= b -> fits w z.
Proof. unfold fits. lia. Qed.

(** Whatever the width of [long] (at least the 32 bits C requires), a
    timeout of at most 1147 ms gives the exact deadline, normalized:
    [10^9 - 1 + 1147 * 10^6] is still below [2^31]. *)
Theorem calc_abs_timeout_short `{P : Platform} (now : timespec)
    (timeout_ms : Z) :
  32 <= long_bits ->
  0 <= timeout_ms <= 1147 ->
  0 <= tv_nsec now < 1000000000 ->
  fits time_t_bits
    (tv_sec now + (tv_nsec now + timeout_ms * 1000000) / 1000000000) ->
  nanos (calc_abs_timeout now timeout_ms) = nanos now + timeout_ms * 1000000 /\
  0 <= tv_nsec (calc_abs_timeout now timeout_ms) < 1000000000.
Proof.
  intros Hw Ht Hn Hs.
  assert (Hms : fits long_bits (timeout_ms * 1000000)).
  { apply (fits_mono 32); [lia|]. unfold fits.
    change (2 ^ (32 - 1)) with 2147483648. lia. }
  assert (Hsum : fits long_bits (tv_nsec now + timeout_ms * 1000000)).
  { apply (fits_mono 32); [lia|]. unfold fits.
    change (2 ^ (32 - 1)) with 2147483648. lia. }
  assert (Htb : 0 < time_t_bits).
  { destruct (Z.ltb_spec 0 time_t_bits) as [|Hle]; [assumption|].
    exfalso. destruct Hs as [Hlo Hhi].
    rewrite Z.pow_neg_r in Hlo, Hhi by lia. lia. }
  unfold calc_abs_timeout, nanos; cbn [tv_sec tv_nsec].
  rewrite (wrap_fits long_bits (timeout_ms * 1000000)) by (assumption || lia).
  rewrite (wrap_fits long_bits (tv_nsec now + _)) by (assumption || lia).
  set (n := tv_nsec now + timeout_ms * 1000000) in *.
  assert (Hn0 : 0 <= n) by (unfold n; lia).
  rewrite Z.quot_div_nonneg, Z.rem_mod_nonneg by lia.
  rewrite (wrap_fits time_t_bits) by assumption.
  split.
  - pose proof (Z.div_mod n 1000000000 ltac:(lia)). lia.
  - apply Z.mod_pos_bound. lia.
Qed.

(** A timeout of 250 ms taken at 5.999999999 s with a [long] of 32 bits. *)
Lemma calc_abs_timeout_short_witness :
  (32 <= @long_bits LLP64 /\ 0 <= 250 <= 1147 /\
   0 <= tv_nsec sample_clock < 1000000000 /\
   fits (@time_t_bits LLP64)
     (tv_sec sample_clock
      + (tv_nsec sample_clock + 250 * 1000000) / 1000000000)) /\
  (nanos (@calc_abs_timeout LLP64 sample_clock 250)
   = nanos sample_clock + 250 * 1000000 /\
   0 <= tv_nsec (@calc_abs_timeout LLP64 sample_clock 250) < 1000000000).
Proof.
  assert (H1 : 32 <= @long_bits LLP64) by (cbn; lia).
  assert (H2 : 0 <= 250 <= 1147) by lia.
  assert (H3 : 0 <= tv_nsec sample_clock < 1000000000) by (cbn; lia).
  assert (H4 : fits (@time_t_bits LLP64)
                 (tv_sec sample_clock
                  + (tv_nsec sample_clock + 250 * 1000000) / 1000000000))
    by fits_compute.
  split; [auto|].
  exact (@calc_abs_timeout_short LLP64 sample_clock 250 H1 H2 H3 H4).
Defined.

(** With a [long] of 32 bits, every timeout from 2148 ms on gives a
    deadline that is too early: it lies less than [2^31] ns after the clock
    reading (possibly before it), whereas the timeout asks for more. *)
Theorem calc_abs_timeout_long32_early `{P : Platform} (now : timespec)
    (timeout_ms : Z) :
  long_bits = 32 ->
  2148 <= timeout_ms <= INT_MAX ->
  0 <= tv_nsec now < 1000000000 ->
  fits time_t_bits (tv_sec now - 3) -> fits time_t_bits (tv_sec now + 3) ->
  nanos (calc_abs_timeout now timeout_ms) < nanos now + 2147483648 /\
  nanos now + 2147483648 < nanos now + timeout_ms * 1000000.
Proof.
  intros Hw Ht Hn Hlo Hhi. split; [|lia].
  assert (Htb : 0 < time_t_bits).
  { destruct (Z.ltb_spec 0 time_t_bits) as [|Hle]; [assumption|].
    exfalso. destruct Hlo as [Ha Hb].
    rewrite Z.pow_neg_r in Ha, Hb by lia. lia. }
  unfold calc_abs_timeout, nanos; cbn [tv_sec tv_nsec]. rewrite Hw.
  set (n := wrap 32 (tv_nsec now + wrap 32 (timeout_ms * 1000000))).
  assert (Hr : fits 32 n) by (apply wrap_range; lia).
  unfold fits in Hr. change (2 ^ (32 - 1)) with 2147483648 in Hr.
  pose proof (Z.quot_rem' n 1000000000) as Hqr.
  assert (Hq : -3 <= Z.quot n 1000000000 <= 3).
  { split.
    - apply Z.quot_le_lower_bound; lia.
    - apply Z.quot_le_upper_bound; lia. }
  assert (Hsec : fits time_t_bits (tv_sec now + Z.quot n 1000000000)).
  { apply (fits_between _ (tv_sec now - 3) (tv_sec now + 3));
      [assumption | assumption | lia]. }
  rewrite (wrap_fits time_t_bits) by assumption.
  lia.
Qed.

(** A timeout of 3 s taken at 10.000000005 s with a [long] of 32 bits: the
    deadline is 9.705032709 s. *)
Lemma calc_abs_timeout_long32_early_witness :
  (@long_bits LLP64 = 32 /\ 2148 <= 3000 <= INT_MAX /\
   0 <= tv_nsec {| tv_sec := 10; tv_nsec := 5 |} < 1000000000) /\
  (nanos (@calc_abs_timeout LLP64 {| tv_sec := 10; tv_nsec := 5 |} 3000)
   < nanos {| tv_sec := 10; tv_nsec := 5 |} + 2147483648 /\
   nanos {| tv_sec := 10; tv_nsec := 5 |} + 2147483648
   < nanos {| tv_sec := 10; tv_nsec := 5 |} + 3000 * 1000000).
Proof.
  assert (H2 : 2148 <= 3000 <= INT_MAX) by (unfold INT_MAX; lia).
  assert (H3 : 0 <= tv_nsec {| tv_sec := 10; tv_nsec := 5 |} < 1000000000)
    by (cbn; lia).
  split; [auto|].
  apply (@calc_abs_timeout_long32_early LLP64 {| tv_sec := 10; tv_nsec := 5 |}
           3000 eq_refl H2 H3); fits_compute.
Defined.

(** * The size of the allocated block *)

Lemma pow2_le k w : 0 <= k <= w -> 2 ^ k <= 2 ^ w.
Proof. intros H. apply Z.pow_le_mono_r; lia. Qed.

Lemma pow2_divide k w : 0 <= k <= w -> (2 ^ k | 2 ^ w).
Proof.
  intros H. exists (2 ^ (w - k)).
  rewrite <- Z.pow_add_r by lia. f_equal. lia.
Qed.

(** [(~s + 1) & (2^k - 1)] is what is missing from [s] to the next multiple
    of [2^k]. *)
Lemma header_padding w k s :
  0 <= k <= w ->
  Z.land (size_wrap w (size_wrap w (Z.lnot s) + 1)) (size_wrap w (2 ^ k - 1))
  = (- s) mod 2 ^ k.
Proof.
  intros Hk. unfold size_wrap.
  assert (Hpk : 0 < 2 ^ k) by (apply Z.pow_pos_nonneg; lia).
  assert (Hpw : 0 < 2 ^ w) by (apply Z.pow_pos_nonneg; lia).
  pose proof (pow2_le k w Hk) as Hle.
  rewrite Zplus_mod_idemp_l.
  replace (Z.lnot s + 1) with (- s) by (unfold Z.lnot; lia).
  destruct (Z.eq_dec k w) as [->|Hne].
  - replace ((2 ^ w - 1) mod 2 ^ w) with (Z.ones w).
    + rewrite Z.land_ones by lia. apply Z.mod_mod. lia.
    + rewrite Z.ones_equiv, Z.mod_small by lia. lia.
  - rewrite (Z.mod_small (2 ^ k - 1)) by lia.
    replace (2 ^ k - 1) with (Z.ones k) by (rewrite Z.ones_equiv; lia).
    rewrite Z.land_ones by lia.
    apply Z.mod_mod_divide, pow2_divide. lia.
Qed.

Lemma header_bytes_rounded w k s :
  0 <= k <= w -> 0 <= s -> s + 2 ^ k <= 2 ^ w ->
  header_bytes w s (2 ^ k) = s + (- s) mod 2 ^ k.
Proof.
  intros Hk Hs Hfit.
  assert (Hpk : 0 < 2 ^ k) by (apply Z.pow_pos_nonneg; lia).
  pose proof (Z.mod_pos_bound (- s) (2 ^ k) Hpk).
  unfold header_bytes. cbv zeta. rewrite header_padding by assumption.
  unfold size_wrap. apply Z.mod_small. lia.
Qed.

(** The conversions to [size_t] do not change the byte count modulo
    [2 ^ w]. *)
Lemma alloc_bytes_mod w sizeof_mtmq sizeof_ptr sizeof_elt size :
  alloc_bytes w sizeof_mtmq sizeof_ptr sizeof_elt size
  = (header_bytes w sizeof_mtmq sizeof_ptr + sizeof_elt * size) mod 2 ^ w.
Proof.
  unfold alloc_bytes, size_wrap. cbv zeta.
  rewrite Zmult_mod_idemp_r, Zplus_mod_idemp_r. reflexivity.
Qed.

(** When the byte counts do not exceed [size_t], the header is rounded up
    to the next multiple of the pointer size, and the block holds the
    structure and the [size] elements that [mtmq_create] places right after
    it. *)
Theorem alloc_bytes_enough (w k sizeof_mtmq sizeof_elt size : Z) :
  0 <= k <= w -> 0 <= sizeof_mtmq -> 0 <= sizeof_elt -> 0 <= size ->
  sizeof_mtmq + 2 ^ k + sizeof_elt * size <= 2 ^ w ->
  header_bytes w sizeof_mtmq (2 ^ k) mod 2 ^ k = 0 /\
  sizeof_mtmq <= header_bytes w sizeof_mtmq (2 ^ k) < sizeof_mtmq + 2 ^ k /\
  alloc_bytes w sizeof_mtmq (2 ^ k) sizeof_elt size
  = header_bytes w sizeof_mtmq (2 ^ k) + sizeof_elt * size /\
  sizeof_mtmq + sizeof_elt * size
  <= alloc_bytes w sizeof_mtmq (2 ^ k) sizeof_elt size.
Proof.
  intros Hk Hs He Hsz Hfit.
  assert (Hpk : 0 < 2 ^ k) by (apply Z.pow_pos_nonneg; lia).
  assert (Hes : 0 <= sizeof_elt * size) by (apply Z.mul_nonneg_nonneg; lia).
  assert (Hpad := Z.mod_pos_bound (- sizeof_mtmq) (2 ^ k) Hpk).
  assert (Hh := header_bytes_rounded w k sizeof_mtmq Hk Hs ltac:(lia)).
  rewrite alloc_bytes_mod, Hh.
  rewrite (Z.mod_small (_ + sizeof_elt * size)) by lia.
  split; [|lia].
  rewrite Zplus_mod_idemp_r.
  replace (sizeof_mtmq + - sizeof_mtmq) with 0 by lia.
  apply Z.mod_0_l. lia.
Qed.

(** A structure of 148 bytes, pointers of 8 bytes, elements of 16 bytes and
    5 elements, with a [size_t] of 64 bits: 152 + 80 bytes. *)
Lemma alloc_bytes_enough_witness :
  (0 <= 3 <= 64 /\ 0 <= 148 /\ 0 <= 16 /\ 0 <= 5 /\
   148 + 2 ^ 3 + 16 * 5 <= 2 ^ 64) /\
  (header_bytes 64 148 (2 ^ 3) mod 2 ^ 3 = 0 /\
   148 <= header_bytes 64 148 (2 ^ 3) < 148 + 2 ^ 3 /\
   alloc_bytes 64 148 (2 ^ 3) 16 5 = header_bytes 64 148 (2 ^ 3) + 16 * 5 /\
   148 + 16 * 5 <= alloc_bytes 64 148 (2 ^ 3) 16 5).
Proof.
  assert (H1 : 0 <= 3 <= 64) by lia.
  assert (H5 : 148 + 2 ^ 3 + 16 * 5 <= 2 ^ 64) by (vm_compute; discriminate).
  split; [repeat split; solve [lia | exact H5]|].
  apply (alloc_bytes_enough 64 3 148 16 5 H1); solve [lia | exact H5].
Defined.

(** For a negative [size] the element bytes wrap around in [size_t] and are
    in effect subtracted: when the elements are at least as large as a
    pointer, the block requested is smaller than the structure that
    [mtmq_create] then initializes in it. *)
Theorem alloc_bytes_negative_size (w k sizeof_mtmq sizeof_elt size : Z) :
  0 <= k <= w -> 0 <= sizeof_mtmq -> sizeof_mtmq + 2 ^ k <= 2 ^ w ->
  2 ^ k <= sizeof_elt -> size < 0 ->
  0 <= header_bytes w sizeof_mtmq (2 ^ k) + sizeof_elt * size ->
  alloc_bytes w sizeof_mtmq (2 ^ k) sizeof_elt size
  = header_bytes w sizeof_mtmq (2 ^ k) + sizeof_elt * size /\
  alloc_bytes w sizeof_mtmq (2 ^ k) sizeof_elt size < sizeof_mtmq.
Proof.
  intros Hk Hs Hfit He Hsz Hpos.
  assert (Hpk : 0 < 2 ^ k) by (apply Z.pow_pos_nonneg; lia).
  assert (Hpad := Z.mod_pos_bound (- sizeof_mtmq) (2 ^ k) Hpk).
  assert (Hh := header_bytes_rounded w k sizeof_mtmq Hk Hs Hfit).
  assert (Hes : sizeof_elt * size <= - sizeof_elt) by nia.
  rewrite alloc_bytes_mod.
  rewrite Z.mod_small by lia.
  split; [reflexivity | lia].
Qed.

(** The same structure with [size = -1]: 136 bytes are requested for a
    structure of 148. *)
Lemma alloc_bytes_negative_size_witness :
  (0 <= 3 <= 64 /\ 0 <= 148 /\ 148 + 2 ^ 3 <= 2 ^ 64 /\ 2 ^ 3 <= 16 /\
   -1 < 0 /\ 0 <= header_bytes 64 148 (2 ^ 3) + 16 * -1) /\
  (alloc_bytes 64 148 (2 ^ 3) 16 (-1)
   = header_bytes 64 148 (2 ^ 3) + 16 * -1 /\
   alloc_bytes 64 148 (2 ^ 3) 16 (-1) < 148).
Proof.
  assert (H1 : 0 <= 3 <= 64) by lia.
  assert (H3 : 148 + 2 ^ 3 <= 2 ^ 64) by (vm_compute; discriminate).
  assert (H4 : (2 ^ 3 <= 16)) by (vm_compute; discriminate).
  assert (H6 : 0 <= header_bytes 64 148 (2 ^ 3) + 16 * -1)
    by (vm_compute; discriminate).
  split; [repeat split; solve [lia | exact H3 | exact H4 | exact H6]|].
  exact (alloc_bytes_negative_size 64 3 148 16 (-1) H1 ltac:(lia) H3 H4
           ltac:(lia) H6).
Defined.

(** * The threads of the demonstration *)

Section Threads.
Context `{P : Platform}.
Variable c : Z.
Hypothesis Hmax : c <= INT_MAX.

(** A push that finds a free slot. *)
Lemma push_now o q code data timeout :
  well_formed c q -> fin q = 0 -> num q < size q -> lock_rc o = 0 ->
  exists q' sigs,
    mtmq_push o (Some q) code data timeout =
    Returns {| ret := MTMQ_RC_OK; after := Some q';
               unused := wakes o; sent := sigs |} /\
    well_formed c q' /\ fin q' = 0 /\ num q' = num q + 1 /\
    size q' = size q /\
    contents q' = contents q ++ [{| code := code; data := data |}].
Proof using Hmax.
  intros Hq Hf Hlt Hl. rewrite (push_unfold o q code data timeout Hl).
  rewrite wait_loop_skip.
  2:{ unfold push_blocked. simpl.
      destruct (Z.eqb_spec (num q) (size q)); [lia | apply andb_false_r]. }
  set (qw := set_num_wr _ (set_num_wr _ q)).
  assert (Hqw : well_formed c qw) by exact Hq.
  destruct (push_resolve_free c 0 qw code data Hqw Hmax Hf Hlt)
    as (q' & -> & Hq' & Hf' & Hn' & _ & _ & Hc).
  exists q'. eexists. split; [reflexivity|].
  repeat (split; [assumption|]). split; [|exact Hc].
  destruct Hq' as [[-> _] _]. destruct Hq as [[-> _] _]. reflexivity.
Qed.

(** A push without a timeout on a full queue that is only woken for
    nothing. *)
Lemma push_stuck o q code data :
  fin q = 0 -> num q = size q -> lock_rc o = 0 ->
  Forall spurious (wakes o) ->
  mtmq_push o (Some q) code data (-1) = NoReturn.
Proof.
  intros Hf Hn Hl Hsp.
  rewrite (push_unfold o q code data (-1) Hl).
  set (q1 := set_num_wr _ q).
  assert (Hb : push_blocked q1 = true) by (apply push_blocked_full; assumption).
  rewrite <- (app_nil_r (wakes o)).
  rewrite (wait_loop_spurious _ _ (wakes o) [] q1 Hb Hsp).
  rewrite (wait_loop_none_left _ _ q1 Hb). reflexivity.
Qed.

(** A pop with a timeout on an empty queue that is not finalized and is
    only woken for nothing. *)
Lemma pop_times_out o q timeout :
  ETIMEDOUT <> 0 -> 0 <= timeout ->
  fin q = 0 -> num q = 0 -> lock_rc o = 0 ->
  Forall spurious (wakes o) ->
  mtmq_pop o (Some q) timeout =
  Returns {| ret := (MTMQ_RC_TIMEDOUT, None);
             after := Some (set_num_rd (wrap 32 (num_rd q)) q);
             unused := []; sent := [] |}.
Proof.
  intros Hne Ht Hf Hn Hl Hsp.
  rewrite (pop_unfold o q timeout Hl).
  set (q1 := set_num_rd _ q).
  assert (Hb : pop_blocked q1 = true) by (apply pop_blocked_empty; assumption).
  rewrite <- (app_nil_r (wakes o)).
  rewrite (wait_loop_spurious _ _ (wakes o) [] q1 Hb Hsp).
  rewrite (wait_loop_none_left _ _ q1 Hb). unfold deadline.
  destruct (Z.ltb_spec timeout 0); [lia|].
  destruct (Z.eqb_spec ETIMEDOUT 0); [contradiction|].
  rewrite pop_resolve_empty by assumption.
  unfold wait_failure. rewrite Z.eqb_refl.
  unfold q1. simpl. rewrite int_incr_decr. reflexivity.
Qed.

(** The producer alone: it stores the codes from [a] on, one per free
    slot, and leaves its loop if the slots suffice for the [n] iterations;
    otherwise it hangs in the push that finds the queue full. *)
Lemma wr_loop_lone sched n : forall a q,
  (forall i, lone (sched i)) ->
  well_formed c q -> fin q = 0 ->
  Z.of_nat a + Z.of_nat n <= INT_MAX ->
  exists q',
    wr_loop n (Z.of_nat a) sched q
    = ([], q', if Z.of_nat n <=? size q - num q then Exited else Hung) /\
    well_formed c q' /\ fin q' = 0 /\
    num q' = Z.min (size q) (num q + Z.of_nat n) /\
    contents q'
    = contents q
      ++ map (fun j => item (Z.of_nat j))
           (seq a (Nat.min n (Z.to_nat (size q - num q)))).
Proof using Hmax.
  induction n as [|n IH]; intros a q Hlone Hq Hf Hint.
  - assert (Hn : 0 <= num q <= size q).
    { destruct Hq as [(-> & Hn & _) _]. exact Hn. }
    exists q. cbn [wr_loop].
    destruct (Z.leb_spec (Z.of_nat 0) (size q - num q)); [|lia].
    split; [reflexivity|]. simpl. rewrite app_nil_r.
    split; [exact Hq|]. split; [exact Hf|]. split; [lia | reflexivity].
  - assert (Hn : 0 <= num q <= size q).
    { destruct Hq as [(-> & Hn & _) _]. exact Hn. }
    destruct (Hlone (Z.of_nat a)) as (Hbefore & Hl & Hsp).
    cbn [wr_loop]. cbv zeta. rewrite Hbefore.
    destruct (Z.eq_dec (num q) (size q)) as [Hfull|Hroom].
    + rewrite (push_stuck _ q _ _ Hf Hfull Hl Hsp).
      exists q. destruct (Z.leb_spec (Z.of_nat (S n)) (size q - num q)); [lia|].
      split; [reflexivity|].
      replace (Z.to_nat (size q - num q)) with O by lia.
      rewrite Nat.min_0_r. simpl. rewrite app_nil_r.
      split; [exact Hq|]. split; [exact Hf|]. split; [lia | reflexivity].
    + destruct (push_now (during (sched (Z.of_nat a))) q (Z.of_nat a) 0 (-1)
                  Hq Hf ltac:(lia) Hl)
        as (q1 & sigs & -> & Hq1 & Hf1 & Hn1 & Hs1 & Hc1).
      cbn [ret after from_option id]. simpl (_ =? _). simpl negb. cbv iota.
      rewrite int_add_fits by (unfold INT_MIN, INT_MAX in *; lia).
      replace (Z.of_nat a + 1) with (Z.of_nat (S a)) by lia.
      destruct (IH (S a) q1 Hlone Hq1 Hf1 ltac:(lia))
        as (q' & -> & Hq' & Hf' & Hn' & Hc').
      exists q'. rewrite Hs1, Hn1.
      split.
      { f_equal.
        destruct (Z.leb_spec (Z.of_nat n) (size q - (num q + 1)));
          destruct (Z.leb_spec (Z.of_nat (S n)) (size q - num q));
          reflexivity || lia. }
      split; [exact Hq'|]. split; [exact Hf'|]. split; [lia|].
      rewrite Hc', Hc1, Hs1, Hn1, <- app_assoc. f_equal.
      replace (Z.to_nat (size q - num q))
        with (S (Z.to_nat (size q - (num q + 1)))) by lia.
      reflexivity.
Qed.

(** The consumer on a finalized queue: it prints the codes of the buffered
    elements, oldest first, and leaves its loop at the first
    [MTMQ_RC_FINALIZED]. *)
Lemma rd_loop_drains sched fuel : forall k i q,
  (forall k, (forall q, before (sched k) q = q) /\
             lock_rc (during (sched k)) = 0) ->
  well_formed c q -> finalized q ->
  (length (contents q) < fuel)%nat ->
  exists q',
    rd_loop fuel k sched i q
    = (map (fun e => Number (code e)) (contents q) ++ [ConsumerFinalized],
       q', Exited) /\
    well_formed c q' /\ finalized q' /\ num q' = 0.
Proof using Hmax.
  induction fuel as [|fuel IH]; intros k i q Hsched Hq Hf Hlen; [lia|].
  destruct (Hsched k) as [Hbefore Hl].
  cbn [rd_loop]. cbv zeta. rewrite Hbefore.
  destruct (Z.eq_dec (num q) 0) as [Hn|Hn].
  - rewrite (pop_finalized_empty _ q 250 Hf Hn Hl).
    cbn [ret after from_option id fst snd]. simpl (_ =? _). cbv iota.
    rewrite (contents_empty q Hn). simpl.
    eexists. split; [reflexivity|]. split; [exact Hq|]. split; [exact Hf | exact Hn].
  - rewrite (pop_some _ q 250 Hn Hl).
    set (qw := set_num_rd (wrap 32 (num_rd q)) q).
    assert (Hqw : well_formed c qw) by exact Hq.
    destruct (dequeued_contents c q (proj1 Hq) Hmax (proj2 Hq) Hn)
      as (e & He & _).
    rewrite He. cbv zeta.
    destruct (dequeued_well_formed c Hmax qw e Hqw Hn He) as [Hq' Hc].
    change (contents qw) with (contents q) in Hc.
    change (set_num (int_sub (num q) 1) (set_first (advance q (first q)) qw))
      with (dequeued qw).
    cbn [ret after from_option id fst snd]. simpl (_ =? _). simpl negb.
    cbv iota.
    assert (Hf' : finalized (dequeued qw)) by exact Hf.
    rewrite Hc in Hlen. simpl in Hlen.
    destruct (IH (S k) (code e) (dequeued qw) Hsched Hq' Hf' ltac:(lia))
      as (q' & -> & Hwf & Hfin & Hnum).
    exists q'. rewrite Hc. simpl. auto.
Qed.

(** The consumer alone on an empty queue that is not finalized: every pop
    times out. *)
Lemma rd_loop_polls sched fuel : forall k i q,
  ETIMEDOUT <> 0 ->
  (forall k, lone (sched k)) ->
  fin q = 0 -> num q = 0 ->
  exists q',
    rd_loop fuel k sched i q = (replicate fuel ConsumerTimeout, q', Running) /\
    observable q' = observable q.
Proof.
  induction fuel as [|fuel IH]; intros k i q Hne Hlone Hf Hn.
  - exists q. split; reflexivity.
  - destruct (Hlone k) as (Hbefore & Hl & Hsp).
    cbn [rd_loop]. cbv zeta. rewrite Hbefore.
    rewrite (pop_times_out _ q 250 Hne ltac:(lia) Hf Hn Hl Hsp).
    cbn [ret after from_option id fst snd]. simpl (_ =? _). cbv iota.
    destruct (IH (S k) i (set_num_rd (wrap 32 (num_rd q)) q) Hne Hlone Hf Hn)
      as (q' & -> & Hobs).
    exists q'. split; [reflexivity | exact Hobs].
Qed.
End Threads.

Lemma sample_turn_lone : lone sample_turn.
Proof. split; [intros q; reflexivity | split; [reflexivity | constructor]]. Qed.

(** [thread_wr] running alone on a queue that is not finalized and has at
    least 16 free slots stores the codes 0 to 15 in order, each with a null
    payload, finalizes the queue, prints only its last line and exits. *)
Theorem producer_completes `{P : Platform} (c : Z) (sched : Z -> turn)
    (last : mtmq -> mtmq) (q : mtmq) :
  c <= INT_MAX -> (forall i, lone (sched i)) -> (forall q, last q = q) ->
  well_formed c q -> fin q = 0 -> num q + 16 <= size q ->
  exists q',
    thread_wr sched last q = ([ProducerExiting], q', Exited) /\
    well_formed c q' /\ finalized q' /\
    contents q' = contents q ++ map (fun j => item (Z.of_nat j)) (seq 0 16).
Proof.
  intros Hmax Hlone Hlast Hq Hf Hroom.
  destruct (wr_loop_lone c Hmax sched 16 0%nat q Hlone Hq Hf)
    as (q1 & Hloop & Hq1 & Hf1 & _ & Hc1).
  { unfold INT_MAX. lia. }
  unfold thread_wr. change (Z.of_nat 0) with 0 in Hloop. rewrite Hloop.
  destruct (Z.leb_spec (Z.of_nat 16) (size q - num q)); [|lia].
  rewrite Hlast.
  destruct (finalize_keeps c q1 Hq1) as (q' & sigs & -> & Hq' & Hc' & Hfin).
  exists q'. split; [reflexivity|]. split; [exact Hq'|]. split; [exact Hfin|].
  rewrite Hc', Hc1. f_equal.
  replace (Nat.min 16 (Z.to_nat (size q - num q))) with 16%nat by lia.
  reflexivity.
Qed.

(** The producer alone on a fresh queue of capacity 16. *)
Lemma producer_completes_witness :
  (16 <= INT_MAX /\ (forall i : Z, lone sample_turn) /\
   well_formed 16 sample_created16 /\ fin sample_created16 = 0 /\
   num sample_created16 + 16 <= size sample_created16) /\
  exists q',
    @thread_wr LP64 (fun _ => sample_turn) (fun q => q) sample_created16
    = ([ProducerExiting], q', Exited) /\
    well_formed 16 q' /\ finalized q' /\
    contents q'
    = contents sample_created16
      ++ map (fun j => item (Z.of_nat j)) (seq 0 16).
Proof.
  assert (Hmax : 16 <= INT_MAX) by (unfold INT_MAX; lia).
  assert (Hlone : forall i : Z, lone sample_turn)
    by (intros _; exact sample_turn_lone).
  assert (Hwf : well_formed 16 sample_created16).
  { unfold well_formed, ring_inv, arr_ok; simpl. repeat split; lia. }
  assert (Hroom : num sample_created16 + 16 <= size sample_created16)
    by (simpl; lia).
  split; [auto 6|].
  exact (@producer_completes LP64 16 (fun _ => sample_turn) (fun q => q)
           sample_created16 Hmax Hlone (fun q => eq_refl) Hwf eq_refl Hroom).
Defined.

(** [thread_wr] running alone on a queue that is not finalized and has
    fewer than 16 free slots fills the queue with the codes from 0 on and
    then never returns from the push that finds it full: it prints nothing
    and does not finalize the queue. *)
Theorem producer_hangs `{P : Platform} (c : Z) (sched : Z -> turn)
    (last : mtmq -> mtmq) (q : mtmq) :
  c <= INT_MAX -> (forall i, lone (sched i)) ->
  well_formed c q -> fin q = 0 -> size q < num q + 16 ->
  exists q',
    thread_wr sched last q = ([], q', Hung) /\
    fin q' = 0 /\ num q' = size q /\
    contents q'
    = contents q
      ++ map (fun j => item (Z.of_nat j)) (seq 0 (Z.to_nat (size q - num q))).
Proof.
  intros Hmax Hlone Hq Hf Hroom.
  assert (Hn : 0 <= num q <= size q).
  { destruct Hq as [(-> & Hn & _) _]. exact Hn. }
  destruct (wr_loop_lone c Hmax sched 16 0%nat q Hlone Hq Hf)
    as (q1 & Hloop & Hq1 & Hf1 & Hn1 & Hc1).
  { unfold INT_MAX. lia. }
  unfold thread_wr. change (Z.of_nat 0) with 0 in Hloop. rewrite Hloop.
  destruct (Z.leb_spec (Z.of_nat 16) (size q - num q)); [lia|].
  exists q1. split; [reflexivity|]. split; [exact Hf1|]. split; [lia|].
  rewrite Hc1. f_equal.
  replace (Nat.min 16 (Z.to_nat (size q - num q)))
    with (Z.to_nat (size q - num q)) by lia.
  reflexivity.
Qed.

(** The producer alone on a fresh queue of capacity 2. *)
Lemma producer_hangs_witness :
  (2 <= INT_MAX /\ (forall i : Z, lone sample_turn) /\
   well_formed 2 sample_created /\ fin sample_created = 0 /\
   size sample_created < num sample_created + 16) /\
  exists q',
    @thread_wr LP64 (fun _ => sample_turn) (fun q => q) sample_created
    = ([], q', Hung) /\
    fin q' = 0 /\ num q' = size sample_created /\
    contents q'
    = contents sample_created
      ++ map (fun j => item (Z.of_nat j))
           (seq 0 (Z.to_nat (size sample_created - num sample_created))).
Proof.
  assert (Hmax : 2 <= INT_MAX) by (unfold INT_MAX; lia).
  assert (Hlone : forall i : Z, lone sample_turn)
    by (intros _; exact sample_turn_lone).
  assert (Hwf : well_formed 2 sample_created).
  { unfold well_formed, ring_inv, arr_ok; simpl. repeat split; lia. }
  assert (Hroom : size sample_created < num sample_created + 16)
    by (simpl; lia).
  split; [auto 6|].
  exact (@producer_hangs LP64 2 (fun _ => sample_turn) (fun q => q)
           sample_created Hmax Hlone Hwf eq_refl Hroom).
Defined.

(** [thread_rd] on a finalized queue that no other thread touches prints
    the codes of the buffered elements, oldest first, then that the queue
    is finalized, and exits, leaving the queue empty; one iteration more
    than there are elements suffices. *)
Theorem consumer_drains `{P : Platform} (c : Z) (fuel : nat)
    (sched : nat -> turn) (i : Z) (q : mtmq) :
  c <= INT_MAX ->
  (forall k, (forall q, before (sched k) q = q) /\
             lock_rc (during (sched k)) = 0) ->
  well_formed c q -> finalized q -> (length (contents q) < fuel)%nat ->
  exists q',
    thread_rd fuel sched i q
    = (map (fun e => Number (code e)) (contents q)
       ++ [ConsumerFinalized; ConsumerExiting], q', Exited) /\
    contents q' = [] /\ finalized q'.
Proof.
  intros Hmax Hsched Hq Hf Hlen.
  destruct (rd_loop_drains c Hmax sched fuel 0%nat i q Hsched Hq Hf Hlen)
    as (q' & Hloop & _ & Hf' & Hn').
  exists q'. unfold thread_rd. rewrite Hloop, <- app_assoc.
  split; [reflexivity|]. split; [apply contents_empty; exact Hn' | exact Hf'].
Qed.

(** The consumer on the finalized sample queue, which holds [(7, 70)]. *)
Lemma consumer_drains_witness :
  (2 <= INT_MAX /\ well_formed 2 sample_finalized /\
   finalized sample_finalized /\
   (length (contents sample_finalized) < 2)%nat) /\
  exists q',
    @thread_rd LP64 2 (fun _ => sample_turn) 0 sample_finalized
    = (map (fun e => Number (code e)) (contents sample_finalized)
       ++ [ConsumerFinalized; ConsumerExiting], q', Exited) /\
    contents q' = [] /\ finalized q'.
Proof.
  assert (Hmax : 2 <= INT_MAX) by (unfold INT_MAX; lia).
  assert (Hwf : well_formed 2 sample_finalized).
  { unfold well_formed, ring_inv, arr_ok; simpl. repeat split; lia. }
  assert (Hf : finalized sample_finalized) by discriminate.
  assert (Hlen : (length (contents sample_finalized) < 2)%nat)
    by (apply Nat.ltb_lt; reflexivity).
  split; [auto|].
  exact (@consumer_drains LP64 2 2 (fun _ => sample_turn) 0 sample_finalized
           Hmax (fun _ => conj (fun q => eq_refl) eq_refl) Hwf Hf Hlen).
Defined.

(** [thread_rd] running alone on an empty queue that is not finalized never
    leaves its loop: every pop times out, and the queue stays as it is. *)
Theorem consumer_polls `{P : Platform} (fuel : nat) (sched : nat -> turn)
    (i : Z) (q : mtmq) :
  ETIMEDOUT <> 0 -> (forall k, lone (sched k)) -> fin q = 0 -> num q = 0 ->
  exists q',
    thread_rd fuel sched i q = (replicate fuel ConsumerTimeout, q', Running) /\
    observable q' = observable q.
Proof.
  intros Hne Hlone Hf Hn.
  destruct (rd_loop_polls sched fuel 0%nat i q Hne Hlone Hf Hn)
    as (q' & Hloop & Hobs).
  exists q'. unfold thread_rd. rewrite Hloop. split; [reflexivity | exact Hobs].
Qed.

(** Five iterations of the consumer alone on the fresh sample queue. *)
Lemma consumer_polls_witness :
  (@ETIMEDOUT LP64 <> 0 /\ (forall k : nat, lone sample_turn) /\
   fin sample_created = 0 /\ num sample_created = 0) /\
  exists q',
    @thread_rd LP64 5 (fun _ => sample_turn) 0 sample_created
    = (replicate 5 ConsumerTimeout, q', Running) /\
    observable q' = observable sample_created.
Proof.
  assert (Hne : @ETIMEDOUT LP64 <> 0) by discriminate.
  assert (Hlone : forall k : nat, lone sample_turn)
    by (intros _; exact sample_turn_lone).
  split; [auto|].
  exact (@consumer_polls LP64 5 (fun _ => sample_turn) 0 sample_created
           Hne Hlone eq_refl eq_refl).
Defined.

(** The producer and then the consumer, each alone, on a well-formed queue
    that is not finalized and has at least 16 free slots: the producer
    exits after finalizing the queue, and the consumer prints the codes of
    the elements the queue held, oldest first, then the numbers 0 to 15 in
    order, then that the queue is finalized, and exits with the queue
    empty. *)
Theorem producer_then_consumer `{P : Platform} (c : Z) (q0 : mtmq)
    (wsched : Z -> turn) (rsched : nat -> turn) (fuel : nat) (i : Z) :
  c <= INT_MAX ->
  well_formed c q0 -> fin q0 = 0 -> num q0 + 16 <= size q0 ->
  (forall j, lone (wsched j)) -> (forall k, lone (rsched k)) ->
  (length (contents q0) + 17 <= fuel)%nat ->
  exists q1 q2,
    thread_wr wsched (fun q => q) q0 = ([ProducerExiting], q1, Exited) /\
    thread_rd fuel rsched i q1
    = (map (fun e => Number (code e)) (contents q0)
       ++ map (fun j => Number (Z.of_nat j)) (seq 0 16)
       ++ [ConsumerFinalized; ConsumerExiting], q2, Exited) /\
    contents q2 = [] /\ finalized q2.
Proof.
  intros Hmax Hwf Hf Hroom Hw Hr Hfuel.
  destruct (wr_loop_lone c Hmax wsched 16 0%nat q0 Hw Hwf Hf)
    as (q1 & Hloop & Hq1 & Hf1 & _ & Hc1).
  { unfold INT_MAX. lia. }
  change (Z.of_nat 0) with 0 in Hloop.
  destruct (Z.leb_spec (Z.of_nat 16) (size q0 - num q0)); [|lia].
  replace (Nat.min 16 (Z.to_nat (size q0 - num q0))) with 16%nat in Hc1 by lia.
  destruct (finalize_keeps c q1 Hq1) as (q1' & sigs & Hfin & Hq1' & Hc1' & Hf1').
  assert (Hsched : forall k, (forall q, before (rsched k) q = q) /\
                             lock_rc (during (rsched k)) = 0).
  { intros k. destruct (Hr k) as (Hb & Hl & _). auto. }
  assert (Hlen : (length (contents q1') < fuel)%nat).
  { rewrite Hc1', Hc1, length_app. cbn. lia. }
  destruct (rd_loop_drains c Hmax rsched fuel 0%nat i q1' Hsched Hq1' Hf1' Hlen)
    as (q2 & Hrd & _ & Hf2 & Hn2).
  exists q1', q2. split.
  - unfold thread_wr. rewrite Hloop, Hfin. reflexivity.
  - unfold thread_rd. rewrite Hrd, <- app_assoc, Hc1', Hc1.
    split; [|split; [apply contents_empty; exact Hn2 | exact Hf2]].
    f_equal. f_equal. rewrite map_app, <- app_assoc. reflexivity.
Qed.

(** The producer and then the consumer on the sample queue of capacity 18
    that holds [(7, 70)]: the consumer prints 7 and then 0 to 15. *)
Lemma producer_then_consumer_witness :
  (18 <= INT_MAX /\ well_formed 18 sample_roomy /\ fin sample_roomy = 0 /\
   num sample_roomy + 16 <= size sample_roomy /\
   (forall j : Z, lone sample_turn) /\
   (length (contents sample_roomy) + 17 <= 18)%nat) /\
  exists q1 q2,
    @thread_wr LP64 (fun _ => sample_turn) (fun q => q) sample_roomy
    = ([ProducerExiting], q1, Exited) /\
    @thread_rd LP64 18 (fun _ => sample_turn) 0 q1
    = (map (fun e => Number (code e)) (contents sample_roomy)
       ++ map (fun j => Number (Z.of_nat j)) (seq 0 16)
       ++ [ConsumerFinalized; ConsumerExiting], q2, Exited) /\
    contents q2 = [] /\ finalized q2.
Proof.
  assert (Hmax : 18 <= INT_MAX) by (unfold INT_MAX; lia).
  assert (Hwf : well_formed 18 sample_roomy).
  { unfold well_formed, ring_inv, arr_ok; simpl. repeat split; lia. }
  assert (Hroom : num sample_roomy + 16 <= size sample_roomy) by (simpl; lia).
  assert (Hlone : forall j : Z, lone sample_turn)
    by (intros _; exact sample_turn_lone).
  assert (Hfuel : (length (contents sample_roomy) + 17 <= 18)%nat)
    by (apply Nat.leb_le; reflexivity).
  split; [auto 7|].
  exact (@producer_then_consumer LP64 18 sample_roomy
           (fun _ => sample_turn) (fun _ => sample_turn) 18 0
           Hmax Hwf eq_refl Hroom Hlone (fun _ => sample_turn_lone) Hfuel).
Defined.

(** ** The threads among other threads *)

Section ThreadSafety.
Context `{P : Platform}.
Variable c : Z.
Hypothesis Hmax : c <= INT_MAX.

Lemma wr_loop_safe sched n : forall i q out q' st,
  (forall i, keeps_shape c (sched i)) ->
  well_formed c q ->
  wr_loop n i sched q = (out, q', st) ->
  well_formed c q' /\
  (st = Hung \/
   (st = Exited /\
    (out = [] \/ out = [ProducerFinalized] \/ out = [PushError]))).
Proof using Hmax.
  induction n as [|n IH]; intros i q out q' st Hk Hq Hloop.
  - injection Hloop as <- <- <-. auto.
  - cbn [wr_loop] in Hloop. cbv zeta in Hloop.
    destruct (Hk i) as [Hbefore Hrely].
    assert (Hq1 : well_formed c (before (sched i) q)) by (apply Hbefore, Hq).
    destruct (mtmq_push (during (sched i)) (Some (before (sched i) q)) i 0 (-1))
      as [r| |] eqn:Hr.
    + destruct (push_keeps_well_formed c Hmax _ _ _ _ _ _ Hq1 Hrely Hr)
        as (q2 & Haft & Hq2).
      rewrite Haft in Hloop. cbn [from_option id] in Hloop.
      destruct (ret r =? MTMQ_RC_FINALIZED).
      { injection Hloop as <- <- <-. auto 6. }
      destruct (negb (ret r =? MTMQ_RC_OK)).
      { injection Hloop as <- <- <-. auto 6. }
      exact (IH _ _ _ _ _ Hk Hq2 Hloop).
    + injection Hloop as <- <- <-. auto.
    + exfalso. exact (push_defined c _ _ _ _ _ Hq1 Hrely Hr).
Qed.

Lemma rd_loop_safe sched fuel : forall k i q out q' st,
  ETIMEDOUT <> 0 ->
  (forall k, keeps_shape c (sched k)) ->
  well_formed c q ->
  rd_loop fuel k sched i q = (out, q', st) ->
  well_formed c q' /\ (st = Exited \/ st = Running).
Proof using Hmax.
  induction fuel as [|fuel IH]; intros k i q out q' st Hne Hk Hq Hloop.
  - injection Hloop as <- <- <-. auto.
  - cbn [rd_loop] in Hloop. cbv zeta in Hloop.
    destruct (Hk k) as [Hbefore Hrely].
    assert (Hq1 : well_formed c (before (sched k) q)) by (apply Hbefore, Hq).
    destruct (pop_timed_returns c (during (sched k)) (before (sched k) q) 250
                Hne ltac:(lia) Hq1 Hrely) as [r Hr].
    rewrite Hr in Hloop.
    destruct (pop_keeps_well_formed c Hmax _ _ _ _ Hq1 Hrely Hr)
      as (q2 & Haft & Hq2).
    rewrite Haft in Hloop. cbn [from_option id] in Hloop.
    destruct (fst (ret r) =? MTMQ_RC_FINALIZED).
    { injection Hloop as <- <- <-. auto. }
    destruct (fst (ret r) =? MTMQ_RC_TIMEDOUT).
    { destruct (rd_loop fuel (S k) sched _ q2) as [[out1 q3] st1] eqn:Hrec.
      injection Hloop as <- <- <-. exact (IH _ _ _ _ _ _ Hne Hk Hq2 Hrec). }
    destruct (negb (fst (ret r) =? MTMQ_RC_OK)).
    { injection Hloop as <- <- <-. auto. }
    destruct (rd_loop fuel (S k) sched _ q2) as [[out1 q3] st1] eqn:Hrec.
    injection Hloop as <- <- <-. exact (IH _ _ _ _ _ _ Hne Hk Hq2 Hrec).
Qed.
End ThreadSafety.

(** Whatever the other threads do to the queue, as long as they keep its
    shape, [thread_wr] never reads or writes outside the element array, and
    if it exits it has finalized the queue and printed at most one message
    before its last line; otherwise it is waiting in a push. *)
Theorem producer_safe `{P : Platform} (c : Z) (sched : Z -> turn)
    (last : mtmq -> mtmq) (q : mtmq) :
  c <= INT_MAX -> (forall i, keeps_shape c (sched i)) ->
  (forall q, well_formed c q -> well_formed c (last q)) ->
  well_formed c q ->
  exists out q' st,
    thread_wr sched last q = (out, q', st) /\ well_formed c q' /\
    (st = Hung \/
     (st = Exited /\ finalized q' /\
      (out = [ProducerExiting] \/
       out = [ProducerFinalized; ProducerExiting] \/
       out = [PushError; ProducerExiting]))).
Proof.
  intros Hmax Hk Hlast Hq. unfold thread_wr.
  destruct (wr_loop 16 0 sched q) as [[out1 q1] st1] eqn:Hloop.
  destruct (wr_loop_safe c Hmax sched 16 0 q out1 q1 st1 Hk Hq Hloop)
    as [Hq1 [-> | [-> Hout]]].
  - exists out1, q1, Hung. auto.
  - destruct (finalize_keeps c (last q1) (Hlast q1 Hq1))
      as (q' & sigs & -> & Hq' & _ & Hfin).
    eexists _, q', Exited. split; [reflexivity|]. split; [exact Hq'|].
    right. split; [reflexivity|]. split; [exact Hfin|].
    destruct Hout as [-> | [-> | ->]]; auto.
Qed.

(** The producer on the full sample queue, among a thread that takes an
    element before each push and finalizes the queue. *)
Lemma producer_safe_witness :
  (2 <= INT_MAX /\ (forall i : Z, keeps_shape 2 sample_busy_turn) /\
   well_formed 2 sample_full) /\
  exists out q' st,
    @thread_wr LP64 (fun _ => sample_busy_turn) (fun q => q) sample_full
    = (out, q', st) /\ well_formed 2 q' /\
    (st = Hung \/
     (st = Exited /\ finalized q' /\
      (out = [ProducerExiting] \/
       out = [ProducerFinalized; ProducerExiting] \/
       out = [PushError; ProducerExiting]))).
Proof.
  assert (Hmax : 2 <= INT_MAX) by (unfold INT_MAX; lia).
  assert (Hk : forall i : Z, keeps_shape 2 sample_busy_turn).
  { intros _. split.
    - intros q0 Hq0. simpl. destruct (Z.eqb_spec (num q0) 0); [exact Hq0|].
      split; [apply dequeued_ring | apply dequeued_arr_ok];
        solve [apply Hq0 | assumption].
    - constructor; [intros q0 Hq0; exact Hq0 | constructor]. }
  assert (Hwf : well_formed 2 sample_full).
  { unfold well_formed, ring_inv, arr_ok; simpl. repeat split; lia. }
  split; [auto|].
  exact (@producer_safe LP64 2 (fun _ => sample_busy_turn) (fun q => q)
           sample_full Hmax Hk (fun q Hq => Hq) Hwf).
Defined.

(** Whatever the other threads do to the queue, as long as they keep its
    shape, [thread_rd] never reads outside the element array and is never
    stuck in a call: its pops have a deadline. *)
Theorem consumer_safe `{P : Platform} (c : Z) (fuel : nat)
    (sched : nat -> turn) (i : Z) (q : mtmq) :
  c <= INT_MAX -> ETIMEDOUT <> 0 -> (forall k, keeps_shape c (sched k)) ->
  well_formed c q ->
  exists out q' st,
    thread_rd fuel sched i q = (out, q', st) /\ well_formed c q' /\
    (st = Exited \/ st = Running).
Proof.
  intros Hmax Hne Hk Hq. unfold thread_rd.
  destruct (rd_loop fuel 0 sched i q) as [[out1 q1] st1] eqn:Hloop.
  destruct (rd_loop_safe c Hmax sched fuel 0%nat i q out1 q1 st1 Hne Hk Hq Hloop)
    as [Hq1 [-> | ->]].
  - eexists _, q1, Exited. auto.
  - exists out1, q1, Running. auto.
Qed.

(** Three iterations of the consumer on the sample queue, among a thread
    that takes an element before each pop and finalizes the queue. *)
Lemma consumer_safe_witness :
  (2 <= INT_MAX /\ @ETIMEDOUT LP64 <> 0 /\
   (forall k : nat, keeps_shape 2 sample_busy_turn) /\
   well_formed 2 sample_queue) /\
  exists out q' st,
    @thread_rd LP64 3 (fun _ => sample_busy_turn) 0 sample_queue
    = (out, q', st) /\ well_formed 2 q' /\
    (st = Exited \/ st = Running).
Proof.
  assert (Hmax : 2 <= INT_MAX) by (unfold INT_MAX; lia).
  assert (Hne : @ETIMEDOUT LP64 <> 0) by discriminate.
  assert (Hk : forall k : nat, keeps_shape 2 sample_busy_turn).
  { intros _. split.
    - intros q0 Hq0. simpl. destruct (Z.eqb_spec (num q0) 0); [exact Hq0|].
      split; [apply dequeued_ring | apply dequeued_arr_ok];
        solve [apply Hq0 | assumption].
    - constructor; [intros q0 Hq0; exact Hq0 | constructor]. }
  assert (Hwf : well_formed 2 sample_queue).
  { unfold well_formed, ring_inv, arr_ok; simpl. repeat split; lia. }
  split; [auto|].
  exact (@consumer_safe LP64 2 3 (fun _ => sample_busy_turn) 0 sample_queue
           Hmax Hne Hk Hwf).
Defined.

(** Finalizing the sample queue and popping three times. *)
Lemma finalize_then_drain_witness :
  (2 <= INT_MAX /\ Forall locked_pop sample_pops /\
   well_formed 2 sample_queue) /\
  exists sigs,
    fst (@run LP64 (Finalize :: sample_pops) sample_queue) =
    Closed sigs
    :: map (fun e => Popped MTMQ_RC_OK (Some e))
         (take (length sample_pops) (contents sample_queue))
    ++ replicate (length sample_pops - length (contents sample_queue))
         (Popped MTMQ_RC_FINALIZED None).
Proof.
  assert (Hmax : 2 <= INT_MAX) by (unfold INT_MAX; lia).
  assert (Hcs : Forall locked_pop sample_pops) by (repeat constructor).
  assert (Hwf : well_formed 2 sample_queue).
  { unfold well_formed, ring_inv, arr_ok; simpl. repeat split; lia. }
  split; [auto|].
  exact (@finalize_then_drain LP64 2 Hmax sample_pops sample_queue Hcs Hwf).
Defined.
